(** * Native core of the Astro mobile app: star ordering, depth iteration
      and frame stacking.

    Shallow embedding of [astrometry_jni.c] and [stacking_jni.c].

    Numeric model.  The C code computes in [float] / [double].  Unless a
    definition says otherwise, such values are modelled as exact rationals
    [Q]; comparisons become [Qle_bool]/[Qltb], the C cast [(int)q] becomes
    truncation toward zero ([trunc_int]) and [sqrtf]/[sqrt] become
    [sqrtf], a monotone square root on a 2^-20 grid.  The module [FP]
    models IEEE round-to-nearest-even for the one place where rounding is
    the point ([apply_affine] writes [float] outputs).

    External library code (astrometry.net's [image2xy_run] and
    [solver_run], the JNI runtime) is not embedded: its results are inputs
    of the models below. *)

From Stdlib Require Import ZArith QArith Qround List Permutation Lia Lqa Bool Arith.
Import ListNotations.

(* ------------------------------------------------------------------------ *)
(** ** Numeric helpers *)

Definition Qltb (x y : Q) : bool := negb (Qle_bool y x).

(** C cast [(int)q]: truncation toward zero. *)
Definition trunc_int (q : Q) : Z :=
  if Qle_bool 0 q then Qfloor q else (- Qfloor (- q))%Z.

(** [sqrtf] / [sqrt]: floor of the square root on the grid 2^-20. *)
Definition sqrtf (q : Q) : Q :=
  Z.sqrt (Qfloor (q * inject_Z (2 ^ 40))) # (2 ^ 20).

Definition Qabs_ (q : Q) : Q := if Qle_bool 0 q then q else - q.

(* ------------------------------------------------------------------------ *)
(** ** Insertion sort as written in the C loops

    [for (i = 1; i < n; i++) { key = a[i]; j = i - 1;
       while (j >= 0 && shift(a[j], key)) { a[j+1] = a[j]; j--; }
       a[j+1] = key; }]

    The sorted prefix is kept reversed, so that the scan from [j = i - 1]
    downward is a scan from the head. *)

Section InsertionSort.
Context {A : Type}.
Variable shift : A -> A -> bool.

Fixpoint ins_rev (key : A) (rprefix : list A) : list A :=
  match rprefix with
  | [] => [key]
  | p :: r => if shift p key then p :: ins_rev key r else key :: p :: r
  end.

Definition insertion_sort (l : list A) : list A :=
  rev (fold_left (fun racc key => ins_rev key racc) l []).

Lemma ins_rev_perm key r : Permutation (ins_rev key r) (key :: r).
Proof.
  induction r as [|p r IH]; simpl; [reflexivity|].
  destruct (shift p key).
  - rewrite IH. apply perm_swap.
  - reflexivity.
Qed.

Lemma fold_ins_perm l acc :
  Permutation (fold_left (fun racc key => ins_rev key racc) l acc) (rev l ++ acc).
Proof.
  revert acc; induction l as [|k l IH]; intros acc; simpl; [reflexivity|].
  etransitivity; [apply IH|].
  rewrite <- app_assoc. simpl. apply Permutation_app_head, ins_rev_perm.
Qed.

Lemma insertion_sort_perm l : Permutation (insertion_sort l) l.
Proof.
  unfold insertion_sort.
  etransitivity; [symmetry; apply Permutation_rev|].
  etransitivity; [apply fold_ins_perm|].
  rewrite app_nil_r. symmetry. apply Permutation_rev.
Qed.
End InsertionSort.

(* ------------------------------------------------------------------------ *)
(** ** Star detection entry point: [detectStarsNative]

    [image2xy_run] fills [params.x], [params.y], [params.flux] and
    [params.background] with [params.npeaks] entries; a peak is modelled as
    one record of those four parallel arrays.  The library call itself is
    external: its status code and its peaks are the inputs of [detect]. *)

Open Scope nat_scope.

Record star := mk_star { sx : Q; sy : Q; sflux : Q; sbg : Q }.

Definition no_star : star := mk_star 0%Q 0%Q 0%Q 0%Q.

Definition star_at (ps : list star) (i : nat) : star := nth i ps no_star.

(** [rawsignal[i] = params.flux[i] + params.background[i]] *)
Definition rawsignal (ps : list star) (i : nat) : Q :=
  (sflux (star_at ps i) + sbg (star_at ps i))%Q.

(** [perm1]: indices sorted by flux, descending
    ([while (j >= 0 && params.flux[perm1[j]] < keyval)]). *)
Definition perm1 (ps : list star) : list nat :=
  insertion_sort (fun p key => Qltb (sflux (star_at ps p)) (sflux (star_at ps key)))
    (seq 0 (length ps)).

(** [perm2]: indices sorted by raw signal, descending. *)
Definition perm2 (ps : list star) : list nat :=
  insertion_sort (fun p key => Qltb (rawsignal ps p) (rawsignal ps key))
    (seq 0 (length ps)).

(** The interleaving loop
    [for (i = 0; i < N && out_idx < N; i++)]: emit [perm1[i]] if not used,
    then [perm2[i]] if [out_idx < N] and not used.  The [used] flags are the
    membership of an index in [out]. *)
Fixpoint interleave_from (p1 p2 : list nat) (n : nat) (out : list nat) : list nat :=
  match p1, p2 with
  | a :: p1', b :: p2' =>
      if n <=? length out then out
      else
        let out1 := if existsb (Nat.eqb a) out then out else out ++ [a] in
        let out2 :=
          if (length out1 <? n) && negb (existsb (Nat.eqb b) out1)
          then out1 ++ [b] else out1 in
        interleave_from p1' p2' n out2
  | _, _ => out
  end.

Definition interleave (ps : list star) : list nat :=
  interleave_from (perm1 ps) (perm2 ps) (length ps) [].

(** Bounding box of the interleaved stars (xmin, xmax, ymin, ymax). *)
Definition bbox (ps : list star) (order : list nat) : Q * Q * Q * Q :=
  match order with
  | [] => (0, 0, 0, 0)%Q
  | s0 :: rest =>
      fold_left
        (fun '(xmin, xmax, ymin, ymax) s =>
           let x := sx (star_at ps s) in
           let y := sy (star_at ps s) in
           let xmin := if Qltb x xmin then x else xmin in
           let xmax := if Qltb xmax x then x else xmax in
           let ymin := if Qltb y ymin then y else ymin in
           let ymax := if Qltb ymax y then y else ymax in
           (xmin, xmax, ymin, ymax))
        rest (sx (star_at ps s0), sx (star_at ps s0),
              sy (star_at ps s0), sy (star_at ps s0))
  end.

Record grid := mk_grid {
  g_xmin : Q; g_ymin : Q; g_W : Q; g_H : Q; g_NX : Z; g_NY : Z }.

Definition UNIFORMIZE_N : Z := 10.

(** The uniformisation grid, or [None] when the guard
    [Wf > 0 && Hf > 0] fails (no uniformisation). *)
Definition grid_of (ps : list star) (order : list nat) : option grid :=
  let '(xmin, xmax, ymin, ymax) := bbox ps order in
  let Wf := (xmax - xmin)%Q in
  let Hf := (ymax - ymin)%Q in
  if Qltb 0 Wf && Qltb 0 Hf then
    let NX0 := trunc_int (Wf / sqrtf (Wf * Hf / inject_Z UNIFORMIZE_N) + (1 # 2))%Q in
    let NX := if (NX0 <? 1)%Z then 1%Z else NX0 in
    let NY0 := trunc_int (inject_Z UNIFORMIZE_N / inject_Z NX + (1 # 2))%Q in
    let NY := if (NY0 <? 1)%Z then 1%Z else NY0 in
    Some (mk_grid xmin ymin Wf Hf NX NY)
  else None.

Definition nbins (g : grid) : nat := Z.to_nat (g_NX g * g_NY g).

(** [bin_assign] of one star: [iy * NX + ix] with the four clamps. *)
Definition bin_of (g : grid) (s : star) : nat :=
  let ix0 := trunc_int ((sx s - g_xmin g) / g_W g * inject_Z (g_NX g))%Q in
  let iy0 := trunc_int ((sy s - g_ymin g) / g_H g * inject_Z (g_NY g))%Q in
  let ix1 := if (ix0 >=? g_NX g)%Z then (g_NX g - 1)%Z else ix0 in
  let iy1 := if (iy0 >=? g_NY g)%Z then (g_NY g - 1)%Z else iy0 in
  let ix := if (ix1 <? 0)%Z then 0%Z else ix1 in
  let iy := if (iy1 <? 0)%Z then 0%Z else iy1 in
  Z.to_nat (iy * g_NX g + ix).

(** Round-robin over bins.  [ba] is the array [bin_assign], indexed by the
    position [i] in [output_order]; [bin_lists b] holds the positions of bin
    [b] in increasing order. *)
Section RoundRobin.
Variable ba : list nat.
Variable nb : nat.

Definition bin_lists (b : nat) : list nat :=
  filter (fun i => nth i ba 0 =? b) (seq 0 (length ba)).

Definition maxlen : nat :=
  fold_left (fun m b => Nat.max m (length (bin_lists b))) (seq 0 nb) 0.

(** [thisrow] of round [r], before and after its insertion sort
    ([while (j >= 0 && thisrow[j] > key)]). *)
Definition row_raw (r : nat) : list nat :=
  flat_map (fun b => if r <? length (bin_lists b) then [nth r (bin_lists b) 0] else [])
    (seq 0 nb).

Definition row (r : nat) : list nat :=
  insertion_sort (fun p key => key <? p) (row_raw r).

Definition uniform_positions : list nat := flat_map row (seq 0 maxlen).
End RoundRobin.

(** [output_order[i] = uniform_order[i]], where
    [uniform_order[u_idx++] = output_order[thisrow[i]]]. *)
Definition uniformize (order : list nat) (ba : list nat) (nb : nat) : list nat :=
  map (fun i => nth i order 0) (uniform_positions ba nb).

(** The Star Orderer: interleave, then uniformise when the grid exists. *)
Definition orderer (ps : list star) : list nat :=
  let order := interleave ps in
  match grid_of ps order with
  | None => order
  | Some g => uniformize order (map (fun s => bin_of g (star_at ps s)) order) (nbins g)
  end.

(** [detectStarsNative] after [image2xy_run] returned [result] and the
    peaks [ps].  [None] is the [NULL] array; [Some l] is the flat
    [x, y, flux] array, one triple per star.  (Allocation failures, which
    also return [NULL], are not modelled.) *)
Definition detect (result : Z) (ps : list star) : option (list (Q * Q * Q)) :=
  if negb (result =? 0)%Z || (length ps =? 0) then None
  else Some (map (fun s => let st := star_at ps s in (sx st, sy st, sflux st))
                 (orderer ps)).

(** *** Facts about the interleaving loop *)

Lemma pigeonhole_seq (l : list nat) n x :
  NoDup l -> (forall y, In y l -> y < n) -> n <= length l -> x < n -> In x l.
Proof.
  intros Hnd Hlt Hlen Hx.
  destruct (in_dec Nat.eq_dec x l) as [Hin|Hnin]; [exact Hin|].
  exfalso.
  assert (Hincl : incl (x :: l) (seq 0 n)).
  { intros y [<-|Hy]; apply in_seq; [lia|]. specialize (Hlt y Hy); lia. }
  apply NoDup_incl_length in Hincl; [|constructor; assumption].
  rewrite length_seq in Hincl. simpl in Hincl. lia.
Qed.

Lemma existsb_eqb_In x l : existsb (Nat.eqb x) l = true <-> In x l.
Proof.
  rewrite existsb_exists. split.
  - intros [y [Hy Heq]]. apply Nat.eqb_eq in Heq. subst. exact Hy.
  - intros H. exists x. split; [exact H | apply Nat.eqb_refl].
Qed.

Lemma interleave_stop p1 p2 n out :
  n <= length out -> interleave_from p1 p2 n out = out.
Proof.
  intros H. destruct p1, p2; simpl; try reflexivity.
  apply Nat.leb_le in H. now rewrite H.
Qed.

Lemma interleave_extends p1 p2 n out :
  exists suf, interleave_from p1 p2 n out = out ++ suf.
Proof.
  revert p2 out; induction p1 as [|a p1 IH]; intros p2 out.
  - exists []. rewrite app_nil_r. reflexivity.
  - destruct p2 as [|b p2]; simpl.
    + exists []. rewrite app_nil_r. reflexivity.
    + destruct (n <=? length out); [exists []; rewrite app_nil_r; reflexivity|].
      set (out1 := if existsb (Nat.eqb a) out then out else out ++ [a]).
      set (out2 := if (length out1 <? n) && negb (existsb (Nat.eqb b) out1)
                   then out1 ++ [b] else out1).
      destruct (IH p2 out2) as [suf Hsuf]. rewrite Hsuf.
      assert (Hext : exists s, out2 = out ++ s).
      { unfold out2, out1.
        destruct (existsb (Nat.eqb a) out);
          [ destruct ((length out <? n) && negb (existsb (Nat.eqb b) out))
          | destruct ((length (out ++ [a]) <? n)
                      && negb (existsb (Nat.eqb b) (out ++ [a]))) ];
          eexists; rewrite <- ?app_assoc; symmetry; try apply app_nil_r; reflexivity. }
      destruct Hext as [s ->]. exists (s ++ suf). rewrite <- app_assoc. reflexivity.
Qed.

Lemma interleave_split k p1 p2 n out :
  interleave_from p1 p2 n out =
  interleave_from (skipn k p1) (skipn k p2) n
    (interleave_from (firstn k p1) (firstn k p2) n out).
Proof.
  revert p1 p2 out; induction k as [|k IH]; intros p1 p2 out; [reflexivity|].
  destruct p1 as [|a p1]; [reflexivity|].
  destruct p2 as [|b p2]; simpl.
  { destruct (skipn k p1); reflexivity. }
  destruct (n <=? length out) eqn:Hn.
  - symmetry. apply interleave_stop. apply Nat.leb_le. exact Hn.
  - apply IH.
Qed.

(** Invariant of the interleaving loop: [out] stays duplicate-free and ends
    up holding exactly the indices already in [out] or listed in [p1] or
    [p2], provided every such index is below [n]. *)
Lemma interleave_elems p1 p2 n out :
  length p1 = length p2 -> NoDup out ->
  (forall x, In x out \/ In x p1 \/ In x p2 -> x < n) ->
  NoDup (interleave_from p1 p2 n out) /\
  (forall x, In x (interleave_from p1 p2 n out) <-> In x out \/ In x p1 \/ In x p2).
Proof.
  revert p2 out; induction p1 as [|a p1 IH]; intros p2 out Hlen Hnd Hlt.
  - destruct p2; [|discriminate]. simpl. split; [exact Hnd|]. tauto.
  - destruct p2 as [|b p2]; [discriminate|]. simpl in Hlen. injection Hlen as Hlen.
    simpl. destruct (n <=? length out) eqn:Hn.
    + apply Nat.leb_le in Hn. split; [exact Hnd|]. intros x. split; [tauto|].
      intros H. apply (pigeonhole_seq out n); auto.
    + apply Nat.leb_gt in Hn.
      set (out1 := if existsb (Nat.eqb a) out then out else out ++ [a]).
      assert (H1 : NoDup out1 /\ (forall x, In x out1 <-> In x out \/ x = a)).
      { unfold out1. destruct (existsb (Nat.eqb a) out) eqn:Ha.
        - apply existsb_eqb_In in Ha. split; [exact Hnd|]. intros x. split; [tauto|].
          intros [H | ->]; auto.
        - split.
          + apply NoDup_app; [exact Hnd|repeat constructor; simpl; tauto|].
            intros y Hy [Hay | []]. rewrite <- Hay in Hy. apply existsb_eqb_In in Hy. congruence.
          + intros x. rewrite in_app_iff. simpl. intuition. }
      destruct H1 as [Hnd1 Hin1].
      set (out2 := if (length out1 <? n) && negb (existsb (Nat.eqb b) out1)
                   then out1 ++ [b] else out1).
      assert (H2 : NoDup out2 /\ (forall x, In x out2 <-> In x out1 \/ x = b)).
      { unfold out2. destruct (length out1 <? n) eqn:Hl; simpl.
        - destruct (existsb (Nat.eqb b) out1) eqn:Hb; simpl.
          + apply existsb_eqb_In in Hb. split; [exact Hnd1|]. intros x. split; [tauto|].
            intros [H | ->]; auto.
          + split.
            * apply NoDup_app; [exact Hnd1|repeat constructor; simpl; tauto|].
              intros y Hy [Hay | []]. rewrite <- Hay in Hy. apply existsb_eqb_In in Hy. congruence.
            * intros x. rewrite in_app_iff. simpl. intuition.
        - apply Nat.ltb_ge in Hl. split; [exact Hnd1|]. intros x. split; [tauto|].
          intros [H | ->]; [exact H|].
          apply (pigeonhole_seq out1 n); auto.
          + intros y Hy. apply Hin1 in Hy. destruct Hy as [Hy | ->]; apply Hlt; simpl; auto.
          + apply Hlt. simpl; auto. }
      destruct H2 as [Hnd2 Hin2].
      destruct (IH p2 out2 Hlen Hnd2) as [HndR HinR].
      { intros x Hx. rewrite Hin2, Hin1 in Hx. apply Hlt. simpl. intuition. }
      split; [exact HndR|]. intros x. rewrite HinR, Hin2, Hin1. simpl. intuition.
Qed.

(** *** Counting helpers *)

Definition pc {A} (p : A -> bool) (l : list A) : nat := length (filter p l).

Lemma pc_app {A} (p : A -> bool) l1 l2 : pc p (l1 ++ l2) = pc p l1 + pc p l2.
Proof. unfold pc. rewrite filter_app, length_app. reflexivity. Qed.

Lemma pc_sum {A} (p : A -> bool) l :
  pc p l = list_sum (map (fun a => if p a then 1 else 0) l).
Proof. induction l as [|a l IH]; simpl; [reflexivity|]. unfold pc in *. simpl.
  destruct (p a); simpl; rewrite IH; reflexivity. Qed.

Lemma pc_flat_map {A B} (p : B -> bool) (f : A -> list B) l :
  pc p (flat_map f l) = list_sum (map (fun a => pc p (f a)) l).
Proof. induction l as [|a l IH]; simpl; [reflexivity|]. rewrite pc_app, IH. reflexivity. Qed.

Lemma pc_map {A B} (p : B -> bool) (f : A -> B) l :
  pc p (map f l) = pc (fun a => p (f a)) l.
Proof. induction l as [|a l IH]; simpl; [reflexivity|]. unfold pc in *. simpl.
  destruct (p (f a)); simpl; rewrite ?IH; reflexivity. Qed.

Lemma pc_perm {A} (p : A -> bool) l l' : Permutation l l' -> pc p l = pc p l'.
Proof.
  induction 1; unfold pc in *; simpl; try reflexivity.
  - destruct (p x); simpl; congruence.
  - destruct (p x), (p y); reflexivity.
  - congruence.
Qed.

Lemma pc_ext_in {A} (p q : A -> bool) l :
  (forall a, In a l -> p a = q a) -> pc p l = pc q l.
Proof. intros H. unfold pc. rewrite (filter_ext_in p q l H). reflexivity. Qed.

Lemma pc_firstn_le {A} (p : A -> bool) k l : pc p (firstn k l) <= pc p l.
Proof.
  revert l; induction k as [|k IH]; intros [|a l]; unfold pc in *; simpl; try lia.
  destruct (p a); simpl; specialize (IH l); lia.
Qed.

Lemma count_occ_pc l x : count_occ Nat.eq_dec l x = pc (Nat.eqb x) l.
Proof.
  induction l as [|a l IH]; unfold pc in *; simpl; [reflexivity|].
  destruct (Nat.eq_dec a x) as [->|Hne].
  - rewrite Nat.eqb_refl. simpl. congruence.
  - destruct (Nat.eqb_spec x a); [congruence|]. exact IH.
Qed.

Lemma sum_seq_single (g : nat -> nat) c s n :
  (forall b, b <> c -> g b = 0) ->
  list_sum (map g (seq s n)) = if (s <=? c) && (c <? s + n) then g c else 0.
Proof.
  intros H. revert s; induction n as [|n IH]; intros s.
  - simpl. destruct (Nat.leb_spec s c), (Nat.ltb_spec c (s + 0)); simpl; try reflexivity; lia.
  - change (list_sum (map g (seq s (S n)))) with (g s + list_sum (map g (seq (S s) n))).
    rewrite IH. destruct (Nat.eq_dec s c) as [->|Hne].
    + destruct (Nat.leb_spec c c), (Nat.leb_spec (S c) c),
               (Nat.ltb_spec c (S c + n)), (Nat.ltb_spec c (c + S n)); simpl; lia.
    + rewrite (H s Hne).
      destruct (Nat.leb_spec s c), (Nat.leb_spec (S s) c),
               (Nat.ltb_spec c (S s + n)), (Nat.ltb_spec c (s + S n)); simpl; lia.
Qed.

Lemma fold_max_ge (f : nat -> nat) l m0 :
  m0 <= fold_left (fun m b => Nat.max m (f b)) l m0 /\
  (forall b, In b l -> f b <= fold_left (fun m b => Nat.max m (f b)) l m0).
Proof.
  revert m0; induction l as [|a l IH]; intros m0; simpl; [split; [lia | tauto]|].
  destruct (IH (Nat.max m0 (f a))) as [H1 H2]. split; [lia|].
  intros b [<-|Hb]; [lia | auto].
Qed.

(** *** Facts about the round-robin pick *)

Section RoundRobinFacts.
Variable ba : list nat.
Variable nb : nat.

Lemma bin_lists_In b i :
  In i (bin_lists ba b) <-> i < length ba /\ nth i ba 0 = b.
Proof.
  unfold bin_lists. rewrite filter_In, in_seq, Nat.eqb_eq. lia.
Qed.

Lemma bin_lists_NoDup b : NoDup (bin_lists ba b).
Proof. apply NoDup_filter, seq_NoDup. Qed.

Lemma bin_lists_nth b r :
  r < length (bin_lists ba b) ->
  nth r (bin_lists ba b) 0 < length ba /\ nth (nth r (bin_lists ba b) 0) ba 0 = b.
Proof. intros H. apply bin_lists_In, nth_In, H. Qed.

Lemma maxlen_ge b : b < nb -> length (bin_lists ba b) <= maxlen ba nb.
Proof.
  intros H. unfold maxlen.
  apply (proj2 (fold_max_ge (fun b => length (bin_lists ba b)) _ _)). apply in_seq. lia.
Qed.

Lemma row_In r p : In p (row ba nb r) -> p < length ba.
Proof.
  unfold row. intros H. apply (Permutation_in _ (insertion_sort_perm _ _)) in H.
  unfold row_raw in H. apply in_flat_map in H. destruct H as [b [_ Hb]].
  destruct (r <? length (bin_lists ba b)) eqn:E; [|destruct Hb].
  destruct Hb as [<-|[]]. apply Nat.ltb_lt in E. apply (bin_lists_nth b r E).
Qed.

Lemma uniform_positions_In p : In p (uniform_positions ba nb) -> p < length ba.
Proof.
  unfold uniform_positions. intros H. apply in_flat_map in H.
  destruct H as [r [_ Hr]]. exact (row_In r p Hr).
Qed.

(** Occupancy of bin [b] in the whole of [bin_lists], seen by the rows. *)
Definition bin_total (b : nat) : nat := if b <? nb then length (bin_lists ba b) else 0.

Definition in_bin (b : nat) (p : nat) : bool := nth p ba 0 =? b.

Lemma row_bin_count b r : pc (in_bin b) (row ba nb r) = if r <? bin_total b then 1 else 0.
Proof.
  unfold row. rewrite (pc_perm _ _ _ (insertion_sort_perm _ _)).
  unfold row_raw. rewrite pc_flat_map.
  rewrite (sum_seq_single _ b).
  - unfold bin_total. change ((0 <=? b) && (b <? 0 + nb)) with (b <? nb).
    destruct (b <? nb) eqn:Hb; simpl.
    + destruct (r <? length (bin_lists ba b)) eqn:E; [|reflexivity].
      apply Nat.ltb_lt in E. destruct (bin_lists_nth b r E) as [_ Hbin].
      unfold pc, in_bin. simpl. rewrite Hbin, Nat.eqb_refl. reflexivity.
    + destruct (r <? 0); reflexivity.
  - intros b' Hne. destruct (r <? length (bin_lists ba b')) eqn:E; [|reflexivity].
    apply Nat.ltb_lt in E. destruct (bin_lists_nth b' r E) as [_ Hbin].
    unfold pc, in_bin. simpl. rewrite Hbin.
    destruct (Nat.eqb_spec b' b); [congruence | reflexivity].
Qed.
End RoundRobinFacts.

(** *** Prefixes of a concatenation of rounds

    Each round [rw r] holds exactly one element of class [b] while
    [r < t b] and none afterwards.  Then every prefix of the concatenated
    rounds consists of [j] complete rounds and part of round [j]. *)

Section Rounds.
Variable rw : nat -> list nat.
Variable q : nat -> nat -> bool.
Variable t : nat -> nat.
Hypothesis Hrow : forall b r, pc (q b) (rw r) = if r <? t b then 1 else 0.

Lemma rounds_total b n r0 :
  pc (q b) (flat_map rw (seq r0 n)) = Nat.min (r0 + n) (t b) - Nat.min r0 (t b).
Proof.
  revert r0; induction n as [|n IH]; intros r0.
  - rewrite Nat.add_0_r, Nat.sub_diag. reflexivity.
  - change (flat_map rw (seq r0 (S n))) with (rw r0 ++ flat_map rw (seq (S r0) n)).
    rewrite pc_app, IH, Hrow. destruct (Nat.ltb_spec r0 (t b)); lia.
Qed.

Lemma rounds_prefix n r0 k :
  exists j, r0 <= j <= r0 + n /\
    forall b,
      Nat.min j (t b) - Nat.min r0 (t b) <= pc (q b) (firstn k (flat_map rw (seq r0 n))) /\
      pc (q b) (firstn k (flat_map rw (seq r0 n))) <=
        Nat.min j (t b) - Nat.min r0 (t b) + (if (j <? r0 + n) && (j <? t b) then 1 else 0).
Proof.
  revert r0 k; induction n as [|n IH]; intros r0 k.
  - exists r0. split; [lia|]. intros b. rewrite Nat.sub_diag.
    change (flat_map rw (seq r0 0)) with (@nil nat). rewrite firstn_nil.
    change (pc (q b) []) with 0. lia.
  - change (flat_map rw (seq r0 (S n))) with (rw r0 ++ flat_map rw (seq (S r0) n)).
    rewrite firstn_app.
    destruct (Nat.le_gt_cases k (length (rw r0))) as [Hk|Hk].
    + exists r0. split; [lia|]. intros b.
      replace (k - length (rw r0)) with 0 by lia. simpl firstn.
      rewrite app_nil_r. pose proof (pc_firstn_le (q b) k (rw r0)) as Hle.
      rewrite Hrow in Hle.
      destruct (Nat.ltb_spec r0 (t b)), (Nat.ltb_spec r0 (r0 + S n)); simpl; lia.
    + destruct (IH (S r0) (k - length (rw r0))) as [j [Hj Hb]].
      exists j. split; [lia|]. intros b. specialize (Hb b).
      rewrite firstn_all2 by lia. rewrite pc_app, Hrow.
      replace (S r0 + n) with (r0 + S n) in Hb by lia.
      destruct (Nat.ltb_spec r0 (t b)); lia.
Qed.

(** Two classes are balanced to within one in every prefix, unless the
    less represented one is already complete in that prefix. *)
Lemma rounds_balanced n k b1 b2 :
  let U := flat_map rw (seq 0 n) in
  pc (q b1) (firstn k U) <= pc (q b2) (firstn k U) + 1 \/
  pc (q b2) (firstn k U) = pc (q b2) U.
Proof.
  intros U. destruct (rounds_prefix n 0 k) as [j [Hj Hb]].
  destruct (Hb b1) as [_ H1]. destruct (Hb b2) as [H2 H2'].
  pose proof (rounds_total b2 n 0) as Ht. fold U in Ht, H1, H2, H2'.
  pose proof (pc_firstn_le (q b2) k U) as Hle.
  simpl in *.
  destruct (Nat.ltb_spec j n), (Nat.ltb_spec j (t b1)), (Nat.ltb_spec j (t b2));
    simpl in *; lia.
Qed.
End Rounds.

Lemma sum_nth_pc (l : list nat) x m :
  list_sum (map (fun r => pc (Nat.eqb x) (if r <? length l then [nth r l 0] else []))
              (seq 0 m)) = pc (Nat.eqb x) (firstn m l).
Proof.
  revert m; induction l as [|a l IH]; intros m.
  - rewrite firstn_nil, (sum_seq_single _ 0).
    + destruct ((0 <=? 0) && (0 <? 0 + m)); reflexivity.
    + intros b _. reflexivity.
  - destruct m as [|m]; [reflexivity|].
    change (seq 0 (S m)) with (0 :: seq 1 m). rewrite <- seq_shift.
    cbn [map list_sum fold_right]. rewrite map_map. simpl firstn.
    change (a :: firstn m l) with ([a] ++ firstn m l). rewrite pc_app, <- IH.
    reflexivity.
Qed.

Section RoundRobinPerm.
Variable ba : list nat.
Variable nb : nat.
Hypothesis Hrange : forall i, i < length ba -> nth i ba 0 < nb.

Lemma uniform_positions_perm :
  Permutation (uniform_positions ba nb) (seq 0 (length ba)).
Proof.
  apply (Permutation_count_occ Nat.eq_dec). intros x. rewrite !count_occ_pc.
  rewrite (pc_sum _ (seq 0 (length ba))).
  rewrite (sum_seq_single _ x) by (intros b Hb; destruct (Nat.eqb_spec x b); congruence).
  rewrite Nat.eqb_refl. change (0 <=? x) with true. simpl andb.
  unfold uniform_positions. rewrite pc_flat_map.
  assert (Hrow : forall r, pc (Nat.eqb x) (row ba nb r) =
            if x <? length ba then
              pc (Nat.eqb x) (if r <? length (bin_lists ba (nth x ba 0))
                              then [nth r (bin_lists ba (nth x ba 0)) 0] else [])
            else 0).
  { intros r. unfold row. rewrite (pc_perm _ _ _ (insertion_sort_perm _ _)).
    unfold row_raw. rewrite pc_flat_map.
    set (h := fun b => pc (Nat.eqb x)
                (if r <? length (bin_lists ba b) then [nth r (bin_lists ba b) 0] else [])).
    assert (Hz : forall b, b <> nth x ba 0 \/ length ba <= x -> h b = 0).
    { intros b Hb. unfold h. destruct (r <? length (bin_lists ba b)) eqn:E; [|reflexivity].
      apply Nat.ltb_lt in E. destruct (bin_lists_nth ba b r E) as [Hlt Hbin].
      unfold pc. simpl. destruct (Nat.eqb_spec x (nth r (bin_lists ba b) 0)) as [Hx|Hx];
        [|reflexivity].
      rewrite <- Hx in Hlt, Hbin. exfalso. destruct Hb; [congruence | lia]. }
    destruct (Nat.ltb_spec x (length ba)) as [Hx|Hx].
    - rewrite (sum_seq_single h (nth x ba 0)) by (intros b Hb; apply Hz; left; exact Hb).
      specialize (Hrange x Hx).
      replace ((0 <=? nth x ba 0) && (nth x ba 0 <? 0 + nb)) with true
        by (symmetry; apply andb_true_intro; split; [apply Nat.leb_le | apply Nat.ltb_lt]; lia).
      reflexivity.
    - rewrite (sum_seq_single h 0) by (intros b _; apply Hz; right; exact Hx).
      rewrite (Hz 0) by (right; exact Hx). destruct (_ && _); reflexivity. }
  rewrite (map_ext _ _ Hrow).
  destruct (Nat.ltb_spec x (length ba)) as [Hx|Hx].
  - rewrite sum_nth_pc, firstn_all2 by (apply maxlen_ge, Hrange, Hx).
    rewrite <- count_occ_pc. apply NoDup_count_occ'; [apply bin_lists_NoDup|].
    apply bin_lists_In. split; [exact Hx | reflexivity].
  - rewrite (sum_seq_single _ 0) by (intros; reflexivity).
    destruct (_ && _); reflexivity.
Qed.
End RoundRobinPerm.

(** *** Facts about the Star Orderer *)

Lemma grid_of_pos ps order g :
  grid_of ps order = Some g -> (1 <= g_NX g)%Z /\ (1 <= g_NY g)%Z.
Proof.
  unfold grid_of. destruct (bbox ps order) as [[[xmin xmax] ymin] ymax].
  destruct (_ && _); [|discriminate]. intros H. injection H as <-. simpl.
  split; match goal with |- context [if (?a <? 1)%Z then _ else _] =>
           destruct (Z.ltb_spec a 1); lia end.
Qed.

Lemma bin_of_lt g s : (1 <= g_NX g)%Z -> (1 <= g_NY g)%Z -> bin_of g s < nbins g.
Proof.
  intros HX HY. unfold bin_of, nbins.
  repeat match goal with
         | |- context [if (?a >=? ?b)%Z then _ else _] => destruct (Z.geb_spec a b)
         end;
  repeat match goal with
         | |- context [if (?a <? ?b)%Z then _ else _] => destruct (Z.ltb_spec a b)
         end;
  apply Z2Nat.inj_lt; nia.
Qed.

Lemma perm1_perm ps : Permutation (perm1 ps) (seq 0 (length ps)).
Proof. apply insertion_sort_perm. Qed.

Lemma perm2_perm ps : Permutation (perm2 ps) (seq 0 (length ps)).
Proof. apply insertion_sort_perm. Qed.

Lemma interleave_perm ps : Permutation (interleave ps) (seq 0 (length ps)).
Proof.
  unfold interleave.
  destruct (interleave_elems (perm1 ps) (perm2 ps) (length ps) []) as [Hnd Hin].
  - rewrite (Permutation_length (perm1_perm ps)), (Permutation_length (perm2_perm ps)).
    reflexivity.
  - constructor.
  - intros x [[]|[H|H]].
    + apply (Permutation_in _ (perm1_perm ps)), in_seq in H. lia.
    + apply (Permutation_in _ (perm2_perm ps)), in_seq in H. lia.
  - apply NoDup_Permutation; [exact Hnd | apply seq_NoDup|].
    intros x. rewrite Hin. split.
    + intros [[]|[H|H]].
      * exact (Permutation_in _ (perm1_perm ps) H).
      * exact (Permutation_in _ (perm2_perm ps) H).
    + intros H. right. left. apply (Permutation_in _ (Permutation_sym (perm1_perm ps)) H).
Qed.

Lemma nth_map_lt {A B} (f : A -> B) l d d' n :
  n < length l -> nth n (map f l) d' = f (nth n l d).
Proof.
  intros Hn. rewrite (nth_indep (map f l) d' (f d)) by (rewrite length_map; exact Hn).
  apply map_nth.
Qed.

Lemma map_nth_seq_self (l : list nat) :
  map (fun i => nth i l 0) (seq 0 (length l)) = l.
Proof.
  apply nth_ext with (d := 0) (d' := 0).
  - rewrite length_map, length_seq. reflexivity.
  - intros n Hn. rewrite length_map, length_seq in Hn.
    rewrite (nth_map_lt _ _ 0) by (rewrite length_seq; exact Hn).
    rewrite seq_nth by exact Hn. reflexivity.
Qed.

Lemma orderer_perm ps : Permutation (orderer ps) (seq 0 (length ps)).
Proof.
  unfold orderer. destruct (grid_of ps (interleave ps)) as [g|] eqn:Hg;
    [|apply interleave_perm].
  destruct (grid_of_pos _ _ _ Hg) as [HX HY].
  unfold uniformize.
  set (order := interleave ps).
  set (ba := map (fun s => bin_of g (star_at ps s)) order).
  assert (Hr : forall i, i < length ba -> nth i ba 0 < nbins g).
  { intros i Hi. unfold ba in *. rewrite length_map in Hi.
    rewrite (nth_map_lt _ _ 0) by exact Hi. apply bin_of_lt; assumption. }
  rewrite (Permutation_map _ (uniform_positions_perm ba (nbins g) Hr)).
  unfold ba. rewrite length_map, map_nth_seq_self. apply interleave_perm.
Qed.

(** Number of output stars that fall in bin [b] of the grid [g]. *)
Definition bin_count (g : grid) (ps : list star) (b : nat) (l : list nat) : nat :=
  pc (fun s => bin_of g (star_at ps s) =? b) l.

(* ------------------------------------------------------------------------ *)
(** ** Frame alignment and stacking: [stacking_jni.c] *)

Definition MAX_TRIANGLES_PER_STAR := 10.
Definition NUM_NEIGHBORS := 5.
Definition TRIANGLE_RATIO_TOLERANCE : Q := 1 # 100.
Definition RANSAC_ITERATIONS := 500.
Definition RANSAC_INLIER_THRESHOLD : Q := 3.
Definition MAX_STACKING_STARS := 50.

(** A star of the [x, y, flux] arrays passed to the stacking entry points. *)
Definition sstar : Type := (Q * Q * Q)%type.
Definition sx3 (s : sstar) : Q := fst (fst s).
Definition sy3 (s : sstar) : Q := snd (fst s).
Definition star3 (stars : list sstar) (i : nat) : sstar := nth i stars (0, 0, 0)%Q.

Definition dist2 (x1 y1 x2 y2 : Q) : Q :=
  let dx := (x2 - x1)%Q in
  let dy := (y2 - y1)%Q in
  (dx * dx + dy * dy)%Q.

Record affine := mk_affine { af_a : Q; af_b : Q; af_c : Q; af_d : Q; af_tx : Q; af_ty : Q }.

Definition apply_affine (aff : affine) (x y : Q) : Q * Q :=
  ((af_a aff * x + af_b aff * y + af_tx aff)%Q,
   (af_c aff * x + af_d aff * y + af_ty aff)%Q).

(** [invert_affine]: [None] is the [return 0] of a singular matrix
    ([fabs(det) < 1e-10]). *)
Definition invert_affine (aff : affine) : option affine :=
  let det := (af_a aff * af_d aff - af_b aff * af_c aff)%Q in
  if Qltb (Qabs_ det) (1 # 10000000000) then None
  else Some (mk_affine (af_d aff / det) (- af_b aff / det) (- af_c aff / det)
                       (af_a aff / det)
                       ((af_b aff * af_ty aff - af_d aff * af_tx aff) / det)
                       ((af_c aff * af_tx aff - af_a aff * af_ty aff) / det)).

(** *** Triangles *)

Record triangle := mk_triangle { ratio1 : Q; ratio2 : Q; star_indices : list nat }.

(** Sort of the [(side, opposite vertex)] pairs
    ([while (q >= 0 && sides[q] > ks)]). *)
Definition sort_sides (l : list (Q * nat)) : list (Q * nat) :=
  insertion_sort (fun p key => Qltb (fst key) (fst p)) l.

(** Body of the triangle loop of [form_triangles] for the triangle
    [(i, idx_a, idx_b)]: [None] is the [continue] of a degenerate
    triangle. *)
Definition make_triangle (stars : list sstar) (i a b : nat) : option triangle :=
  let xi := sx3 (star3 stars i) in let yi := sy3 (star3 stars i) in
  let xa := sx3 (star3 stars a) in let ya := sy3 (star3 stars a) in
  let xb := sx3 (star3 stars b) in let yb := sy3 (star3 stars b) in
  let sa := sqrtf (dist2 xi yi xa ya) in
  let sb := sqrtf (dist2 xi yi xb yb) in
  let sc := sqrtf (dist2 xa ya xb yb) in
  let eps := 1 # 1000000 in
  if Qltb sa eps || Qltb sb eps || Qltb sc eps then None
  else
    match sort_sides [(sa, b); (sb, a); (sc, i)] with
    | [(s0, v0); (s1, v1); (s2, v2)] =>
        Some (mk_triangle (s1 / s0) (s2 / s0) [v0; v1; v2])
    | _ => None
    end.

(** The [NUM_NEIGHBORS] nearest neighbours of star [i] among the first
    [max_use] stars: [(d2, idx)] pairs sorted by [d2]
    ([while (b >= 0 && neighbors[b].d2 > key.d2)]). *)
Definition nearest (stars : list sstar) (max_use i : nat) : list nat :=
  let xi := sx3 (star3 stars i) in let yi := sy3 (star3 stars i) in
  let nbs := map (fun j => (dist2 xi yi (sx3 (star3 stars j)) (sy3 (star3 stars j)), j))
                 (filter (fun j => negb (i =? j)) (seq 0 max_use)) in
  map snd (firstn NUM_NEIGHBORS
             (insertion_sort (fun p key => Qltb (fst key) (fst p)) nbs)).

(** Pairs [(a, b)] with [a < b < n]: [for a; for b = a + 1]. *)
Definition pairs (n : nat) : list (nat * nat) :=
  flat_map (fun a => map (fun b => (a, b)) (seq (S a) (n - S a))) (seq 0 n).

Definition triangles_of_star (stars : list sstar) (max_use i : nat) : list triangle :=
  let nb := nearest stars max_use i in
  flat_map (fun '(a, b) =>
              match make_triangle stars i (nth a nb 0) (nth b nb 0) with
              | Some t => [t]
              | None => []
              end)
           (pairs (length nb)).

(** [form_triangles]: [None] is the [NULL] return for fewer than 3 stars.
    The guard [tri_idx >= max_triangles] never fires: each star yields at
    most C(5,2) = [MAX_TRIANGLES_PER_STAR] triangles. *)
Definition form_triangles (stars : list sstar) (num_stars : nat) : option (list triangle) :=
  if num_stars <? 3 then None
  else
    let max_use := Nat.min num_stars MAX_STACKING_STARS in
    Some (flat_map (triangles_of_star stars max_use) (seq 0 max_use)).

(** *** Triangle matching *)

Record correspondence := mk_corr { ref_x : Q; ref_y : Q; new_x : Q; new_y : Q }.

Definition ratios_match (tn tr : triangle) : bool :=
  Qltb (Qabs_ (ratio1 tn - ratio1 tr)) TRIANGLE_RATIO_TOLERANCE &&
  Qltb (Qabs_ (ratio2 tn - ratio2 tr)) TRIANGLE_RATIO_TOLERANCE.

(** [match_triangles]: new triangles outer, reference triangles inner,
    three correspondences per matching pair, at most [max_corr] in all. *)
Definition match_triangles (ref_tri : list triangle) (ref_stars : list sstar)
    (new_tri : list triangle) (new_stars : list sstar) : list correspondence :=
  let max_corr := Nat.min (length ref_tri * length new_tri * 3) 10000 in
  fold_left
    (fun acc '(tn, tr) =>
       if ratios_match tn tr then
         fold_left
           (fun acc k =>
              if max_corr <=? length acc then acc
              else
                let ni := nth k (star_indices tn) 0 in
                let ri := nth k (star_indices tr) 0 in
                acc ++ [mk_corr (sx3 (star3 ref_stars ri)) (sy3 (star3 ref_stars ri))
                                (sx3 (star3 new_stars ni)) (sy3 (star3 new_stars ni))])
           [0; 1; 2] acc
       else acc)
    (list_prod new_tri ref_tri) [].

(** *** RANSAC *)

Definition det3 (a b c d e f g h i : Q) : Q :=
  (a * (e * i - f * h) - b * (d * i - f * g) + c * (d * h - e * g))%Q.

(** [solve_affine_3pt]: the 6x6 system splits into two 3x3 systems with the
    matrix of rows [(new_x, new_y, 1)], whose determinant [D] gives
    [det A = D * D]; the LU solve of GSL fails exactly on a singular
    matrix, and otherwise returns the unique solution, written here by
    Cramer's rule. *)
Definition solve_affine_3pt (sample : list correspondence) : option affine :=
  match sample with
  | [c0; c1; c2] =>
      let x0 := new_x c0 in let y0 := new_y c0 in
      let x1 := new_x c1 in let y1 := new_y c1 in
      let x2 := new_x c2 in let y2 := new_y c2 in
      let D := det3 x0 y0 1 x1 y1 1 x2 y2 1 in
      if Qeq_bool D 0 then None
      else
        let solve (v0 v1 v2 : Q) : Q * Q * Q :=
          ((det3 v0 y0 1 v1 y1 1 v2 y2 1 / D)%Q,
           (det3 x0 v0 1 x1 v1 1 x2 v2 1 / D)%Q,
           (det3 x0 y0 v0 x1 y1 v1 x2 y2 v2 / D)%Q) in
        let '(a, b, tx) := solve (ref_x c0) (ref_x c1) (ref_x c2) in
        let '(c, d, ty) := solve (ref_y c0) (ref_y c1) (ref_y c2) in
        Some (mk_affine a b c d tx ty)
  | _ => None
  end.

(** [evaluate_affine]: inlier count and RMS error ([sqrt] is modelled by
    [sqrtf] as well). *)
Definition evaluate_affine (aff : affine) (corr : list correspondence) : nat * Q :=
  let errs := map (fun c => let '(px, py) := apply_affine aff (new_x c) (new_y c) in
                            sqrtf (dist2 px py (ref_x c) (ref_y c))) corr in
  let sum_sq := fold_left (fun s e => Qplus' s (e * e)) errs 0%Q in
  (length (filter (fun e => Qltb e RANSAC_INLIER_THRESHOLD) errs),
   if length corr =? 0 then 0%Q
   else sqrtf (sum_sq / inject_Z (Z.of_nat (length corr)))).

(** The values successive [rand()] calls return are the stream [rand];
    [cnt] counts the calls made so far. One index of the sample: the
    [do { ... } while (retry < 10)] loop, at most 10 draws. *)
Fixpoint pick_loop (rand : nat -> nat) (n : nat) (prev : list nat) (fuel cnt : nat)
    : nat * nat :=
  let idx := rand cnt mod n in
  if negb (existsb (Nat.eqb idx) prev) then (idx, S cnt)
  else match fuel with
       | 0 => (idx, S cnt)
       | S f => pick_loop rand n prev f (S cnt)
       end.

Definition pick_index (rand : nat -> nat) (n : nat) (prev : list nat) (cnt : nat) : nat * nat :=
  pick_loop rand n prev 9 cnt.

Definition no_corr := mk_corr 0 0 0 0.

(** RANSAC state: calls to [rand] so far, [best_inliers], [best_rms], [best]. *)
Definition ransac_iter (rand : nat -> nat) (corr : list correspondence)
    (st : nat * nat * Q * option affine) : nat * nat * Q * option affine :=
  let '(cnt, best_inliers, best_rms, best) := st in
  let n := length corr in
  let '(i0, cnt1) := pick_index rand n [] cnt in
  let '(i1, cnt2) := pick_index rand n [i0] cnt1 in
  let '(i2, cnt3) := pick_index rand n [i0; i1] cnt2 in
  match solve_affine_3pt (map (fun i => nth i corr no_corr) [i0; i1; i2]) with
  | None => (cnt3, best_inliers, best_rms, best)
  | Some aff =>
      let '(inliers, rms) := evaluate_affine aff corr in
      if (best_inliers <? inliers) || ((inliers =? best_inliers) && Qltb rms best_rms)
      then (cnt3, inliers, rms, Some aff)
      else (cnt3, best_inliers, best_rms, best)
  end.

(** [ransac_affine]: [None] is the [return 0] of the two failure cases. *)
Definition ransac_affine (rand : nat -> nat) (corr : list correspondence)
    : option (affine * nat * Q) :=
  if length corr <? 3 then None
  else
    let '(_, best_inliers, best_rms, best) :=
      Nat.iter RANSAC_ITERATIONS (ransac_iter rand corr) (0, 0, inject_Z (10 ^ 9), None) in
    if best_inliers =? 0 then None
    else match best with
         | Some aff => Some (aff, best_inliers, best_rms)
         | None => None
         end.

(** *** Accumulator *)

(** Pixels are the unsigned byte values [(unsigned char)pixels[i]]. *)
Definition bilinear_sample (image : list Z) (width height : nat) (x y : Q) : Q :=
  if Qltb x 0 || Qltb y 0 || Qle_bool (inject_Z (Z.of_nat width - 1)) x
     || Qle_bool (inject_Z (Z.of_nat height - 1)) y then 0%Q
  else
    let x0 := trunc_int x in let y0 := trunc_int y in
    let x1 := (x0 + 1)%Z in let y1 := (y0 + 1)%Z in
    let fx := (x - inject_Z x0)%Q in let fy := (y - inject_Z y0)%Q in
    let px (yy xx : Z) := inject_Z (nth (Z.to_nat (yy * Z.of_nat width + xx)) image 0%Z) in
    let v0 := (px y0 x0 * (1 - fx) + px y0 x1 * fx)%Q in
    let v1 := (px y1 x0 * (1 - fx) + px y1 x1 * fx)%Q in
    (v0 * (1 - fy) + v1 * fy)%Q.

Record ctx := mk_ctx {
  width : nat; height : nat;
  sum_r : list Q; count : list nat;
  frame_count : nat;
  ref_stars : list sstar; num_ref_stars : nat;
  ref_triangles : option (list triangle) }.

(** [initStackingNative]: zeroed buffers ([calloc]). *)
Definition init_ctx (w h : nat) : ctx :=
  mk_ctx w h (repeat 0%Q (w * h)) (repeat 0 (w * h)) 0 [] 0 None.

(** Accumulation of one frame: pixel [idx] gets [f idx] when it is [Some v]
    ([sum_r[idx] += v; count[idx]++]) and is left alone otherwise; then
    [frame_count++]. The loops over [y] and [x] visit each
    [idx = y * width + x < width * height] once. *)
Definition accumulate (c : ctx) (f : nat -> option Q) : ctx :=
  let npix := width c * height c in
  mk_ctx (width c) (height c)
    (map (fun idx => match f idx with
                     | Some v => (nth idx (sum_r c) 0 + v)%Q
                     | None => nth idx (sum_r c) 0%Q
                     end) (seq 0 npix))
    (map (fun idx => match f idx with
                     | Some _ => S (nth idx (count c) 0)
                     | None => nth idx (count c) 0
                     end) (seq 0 npix))
    (S (frame_count c)) (ref_stars c) (num_ref_stars c) (ref_triangles c).

(** [warp_and_accumulate]: on a singular transform it logs and returns,
    leaving the context (and [frame_count]) unchanged. *)
Definition warp_and_accumulate (c : ctx) (image : list Z) (aff : affine) : ctx :=
  match invert_affine aff with
  | None => c
  | Some inv =>
      accumulate c (fun idx =>
        let x := idx mod width c in
        let y := idx / width c in
        let '(src_x, src_y) := apply_affine inv (inject_Z (Z.of_nat x)) (inject_Z (Z.of_nat y)) in
        if Qle_bool 0 src_x && Qle_bool 0 src_y
           && Qltb src_x (inject_Z (Z.of_nat (width c) - 1))
           && Qltb src_y (inject_Z (Z.of_nat (height c) - 1))
        then Some (bilinear_sample image (width c) (height c) src_x src_y)
        else None)
  end.

(** The returned [double[4]]: [{ok, inliers, rms, frameCount}]. *)
Record add_result := mk_result { res_ok : nat; res_inliers : nat; res_rms : Q; res_frame_count : nat }.

Definition failure (c : ctx) : add_result := mk_result 0 0 0 (frame_count c).

(** [addFrameNative]: the new context and the returned array ([None] is
    [NULL]). [rand] is the stream of values of [rand()] during the call. *)
Definition add_frame (c : ctx) (pixels : list Z) (stars : list sstar) (rand : nat -> nat)
    : ctx * option add_result :=
  let num_stars := length stars in
  if frame_count c =? 0 then
    let nref := Nat.min num_stars MAX_STACKING_STARS in
    let rs := firstn nref stars in
    match form_triangles rs nref with
    | None =>
        (mk_ctx (width c) (height c) (sum_r c) (count c) (frame_count c) rs nref None, None)
    | Some tris =>
        let c1 := mk_ctx (width c) (height c) (sum_r c) (count c) (frame_count c)
                         rs nref (Some tris) in
        (accumulate c1 (fun i => Some (inject_Z (nth i pixels 0%Z))),
         Some (mk_result 1 0 0 1))
    end
  else
    let use_stars := Nat.min num_stars MAX_STACKING_STARS in
    match form_triangles stars use_stars with
    | None | Some [] => (c, Some (failure c))
    | Some new_tri =>
        let ref_tri := match ref_triangles c with Some t => t | None => [] end in
        let corr := match_triangles ref_tri (ref_stars c) new_tri stars in
        if length corr <? 3 then (c, Some (failure c))
        else
          match ransac_affine rand corr with
          | None => (c, Some (failure c))
          | Some (aff, inliers, rms) =>
              let c' := warp_and_accumulate c pixels aff in
              (c', Some (mk_result 1 inliers rms (frame_count c')))
          end
    end.

Definition clamp_byte (v : Z) : Z :=
  if (v <? 0)%Z then 0%Z else if (255 <? v)%Z then 255%Z else v.

(** [getStackedImageNative]: [None] is [NULL]; byte values are given
    unsigned. *)
Definition get_stacked (c : ctx) : option (list Z) :=
  if frame_count c =? 0 then None
  else
    Some (map (fun i =>
                 let n := nth i (count c) 0 in
                 if 0 <? n
                 then clamp_byte (trunc_int (nth i (sum_r c) 0%Q / inject_Z (Z.of_nat n) + (1 # 2)))
                 else 0%Z)
              (seq 0 (width c * height c))).

(* ------------------------------------------------------------------------ *)
(** ** IEEE rounding of the affine helpers

    Round to nearest, ties to even, of a rational to a binary format with
    [p] significand bits (normal range; no overflow or subnormals). *)

Module FP.

Definition pow2 (e : Z) : Q :=
  if (0 <=? e)%Z then inject_Z (2 ^ e) else 1 # Z.to_pos (2 ^ (- e)).

(** [floor (log2 q)] for [q > 0]. *)
Definition ilog2 (q : Q) : Z :=
  let e := (Z.log2 (Qnum q) - Z.log2 (Zpos (Qden q)))%Z in
  if Qltb q (pow2 e) then (e - 1)%Z else e.

Definition round_ne (q : Q) : Z :=
  let f := Qfloor q in
  let r := (q - inject_Z f)%Q in
  if Qltb r (1 # 2) then f
  else if Qltb (1 # 2) r then (f + 1)%Z
  else if Z.even f then f else (f + 1)%Z.

Definition round_bin (p : Z) (q : Q) : Q :=
  if Qeq_bool q 0 then 0%Q
  else
    let a := Qabs_ q in
    let e := (ilog2 a - (p - 1))%Z in
    let m := round_ne (a / pow2 e) in
    if Qltb q 0 then (- (inject_Z m * pow2 e))%Q else (inject_Z m * pow2 e)%Q.

Definition f32 : Q -> Q := round_bin 24.
Definition f64 : Q -> Q := round_bin 53.

Definition dadd (x y : Q) : Q := f64 (x + y).
Definition dsub (x y : Q) : Q := f64 (x - y).
Definition dmul (x y : Q) : Q := f64 (x * y).
Definition ddiv (x y : Q) : Q := f64 (x / y).

(** [apply_affine]: [double] arithmetic, [float] outputs. *)
Definition apply_affine (aff : affine) (x y : Q) : Q * Q :=
  (f32 (dadd (dadd (dmul (af_a aff) x) (dmul (af_b aff) y)) (af_tx aff)),
   f32 (dadd (dadd (dmul (af_c aff) x) (dmul (af_d aff) y)) (af_ty aff))).

(** [invert_affine] in [double] arithmetic. *)
Definition invert_affine (aff : affine) : option affine :=
  let det := dsub (dmul (af_a aff) (af_d aff)) (dmul (af_b aff) (af_c aff)) in
  if Qltb (Qabs_ det) (f64 (1 # 10000000000)) then None
  else Some (mk_affine (ddiv (af_d aff) det) (ddiv (- af_b aff) det)
                       (ddiv (- af_c aff) det) (ddiv (af_a aff) det)
                       (ddiv (dsub (dmul (af_b aff) (af_ty aff)) (dmul (af_d aff) (af_tx aff))) det)
                       (ddiv (dsub (dmul (af_c aff) (af_tx aff)) (dmul (af_a aff) (af_ty aff))) det)).

End FP.

(* ------------------------------------------------------------------------ *)
(** ** Depth iteration of [solveFieldNative] *)

Definition depths : list nat := map (fun i => 10 * S i) (seq 0 20).

Section DepthLoop.
(** Outcome of [solver_run] on the field objects [startobj, endobj)
    ([solver_did_solve] after the run), and the eleven WCS values the
    result array holds after [1.0] when solved. *)
Variable solver_run : nat -> nat -> bool.
Variable wcs_values : list Q.

(** The loop over [depths]: the windows tried, and [solved]. *)
Fixpoint depth_loop (ds : list nat) (lasthi numStars : nat) : list (nat * nat) * bool :=
  match ds with
  | [] => ([], false)
  | d :: ds' =>
      let startobj := lasthi in
      if numStars <=? startobj then ([], false)
      else
        let endobj := if numStars <? d then numStars else d in
        if solver_run startobj endobj then ([(startobj, endobj)], true)
        else let '(tried, solved) := depth_loop ds' d numStars in
             ((startobj, endobj) :: tried, solved)
  end.

(** The 12-value result array and the windows tried. *)
Definition solve_field (numStars : nat) : list Q * list (nat * nat) :=
  let '(tried, solved) := depth_loop depths 0 numStars in
  (if solved then 1%Q :: firstn 11 (wcs_values ++ repeat 0%Q 11) else repeat 0%Q 12, tried).

(** The windows the spec describes: [[10 i, min (10 i + 10, N))] for the
    windows of the schedule that start below [N], tried in order up to the
    first that solves. *)
Definition spec_windows (numStars : nat) : list (nat * nat) :=
  map (fun i => (10 * i, Nat.min (10 * i + 10) numStars))
      (filter (fun i => 10 * i <? numStars) (seq 0 20)).

Fixpoint upto_solved (ws : list (nat * nat)) : list (nat * nat) :=
  match ws with
  | [] => []
  | w :: r => if solver_run (fst w) (snd w) then [w] else w :: upto_solved r
  end.

End DepthLoop.

(* ------------------------------------------------------------------------ *)
(** ** Worked inputs *)

(** Eleven peaks: one bright star in a corner and ten faint ones packed in
    the opposite corner. The bounding box is 10 x 10, so the grid is
    3 x 3 (nine bins). *)
Definition ex_c3 : list star :=
  mk_star 10 10 100 0
  :: map (fun i => mk_star (Z.of_nat i # 100) (Z.of_nat i # 100) (inject_Z (50 - Z.of_nat i)) 0)
         (seq 0 10).

Definition ex_c3_grid : grid :=
  match grid_of ex_c3 (interleave ex_c3) with
  | Some g => g
  | None => mk_grid 0 0 1 1 1 1
  end.

(** Two peaks on a vertical line, ranked the same by flux and by raw
    signal: the bounding box has zero width, so there is no uniformisation. *)
Definition ex_c4 : list star := [mk_star 1 1 2 0; mk_star 1 2 1 0].

(* ------------------------------------------------------------------------ *)
(** ** Claims about star detection and ordering *)

Lemma In_firstn_In {A} (x : A) k l : In x (firstn k l) -> In x l.
Proof. intros H. rewrite <- (firstn_skipn k l). apply in_or_app. left. exact H. Qed.

(** C1 (counterexample). Detection that runs ([result = 0]) and finds no
    peak does not return an empty star list: it returns [NULL]. *)
Lemma detect_no_peaks_not_empty : detect 0%Z [] <> Some [].
Proof. vm_compute. discriminate. Qed.

(** C1 (amended). When detection finds zero peaks, [detect] returns [NULL],
    the same value it returns when [image2xy_run] fails: zero peaks is
    reported like an error, not as an empty list. *)
Theorem detect_no_peaks_null (result : Z) (ps : list star) :
  detect result [] = None /\ detect 1%Z ps = None.
Proof.
  unfold detect. simpl. rewrite orb_true_r. split; reflexivity.
Qed.

(** C3 (counterexample). With eleven peaks the grid has nine bins, not ten,
    and the first ten stars of the Orderer output hold nine stars of bin 0,
    more than [ceil(10/9) = 2] (and [ceil(10/10) = 1]). *)
Lemma orderer_prefix_overfull :
  length ex_c3 = 11 /\ grid_of ex_c3 (interleave ex_c3) = Some ex_c3_grid /\
  nbins ex_c3_grid = 9 /\ bin_count ex_c3_grid ex_c3 0 (firstn 10 (orderer ex_c3)) = 9.
Proof. vm_compute. repeat split; reflexivity. Qed.

(** C3 (amended). When the uniformisation grid exists (the bounding box of
    the stars has positive width and height), then in every prefix of the
    Orderer output and for any two bins [b1], [b2] of the grid, [b1] holds
    at most one star more than [b2], unless all stars of [b2] are already in
    the prefix. The grid has [NX * NY] bins, not always ten. *)
Theorem orderer_prefix_balanced ps g k b1 b2 :
  grid_of ps (interleave ps) = Some g ->
  bin_count g ps b1 (firstn k (orderer ps)) <= bin_count g ps b2 (firstn k (orderer ps)) + 1 \/
  bin_count g ps b2 (firstn k (orderer ps)) = bin_count g ps b2 (orderer ps).
Proof.
  intros Hg. unfold orderer. rewrite Hg. unfold uniformize.
  set (order := interleave ps).
  set (ba := map (fun s => bin_of g (star_at ps s)) order).
  set (U := uniform_positions ba (nbins g)).
  assert (Hbin : forall b p, In p U ->
            (fun s => bin_of g (star_at ps s) =? b) (nth p order 0) = in_bin ba b p).
  { intros b p Hp. apply uniform_positions_In in Hp. unfold in_bin, ba.
    unfold ba in Hp. rewrite length_map in Hp. rewrite (nth_map_lt _ _ 0) by exact Hp.
    reflexivity. }
  assert (Hpc : forall b l, (forall p, In p l -> In p U) ->
            pc (fun a => bin_of g (star_at ps (nth a order 0)) =? b) l = pc (in_bin ba b) l).
  { intros b l Hl. apply pc_ext_in. intros p Hp. apply Hbin, Hl, Hp. }
  unfold bin_count. rewrite firstn_map, !pc_map.
  rewrite !Hpc by (intros p Hp; first [exact Hp | exact (In_firstn_In _ k _ Hp)]).
  exact (rounds_balanced (row ba (nbins g)) (in_bin ba) (bin_total ba (nbins g))
           (row_bin_count ba (nbins g)) (maxlen ba (nbins g)) k b1 b2).
Qed.

Lemma orderer_prefix_balanced_witness :
  grid_of ex_c3 (interleave ex_c3) = Some ex_c3_grid /\
  (bin_count ex_c3_grid ex_c3 8 (firstn 10 (orderer ex_c3))
     <= bin_count ex_c3_grid ex_c3 0 (firstn 10 (orderer ex_c3)) + 1 \/
   bin_count ex_c3_grid ex_c3 0 (firstn 10 (orderer ex_c3))
     = bin_count ex_c3_grid ex_c3 0 (orderer ex_c3)).
Proof.
  split; [vm_compute; reflexivity|].
  apply (orderer_prefix_balanced ex_c3 ex_c3_grid 10 8 0). vm_compute. reflexivity.
Defined.

(** C4 (counterexample). For [ex_c4] and [k = 1] the first [2 k = 2]
    output stars are [{0, 1}], while the top-1 star by flux and the top-1
    star by raw signal are both star 0. *)
Lemma orderer_first_2k_not_union :
  ~ (forall x, In x (firstn 2 (orderer ex_c4)) <->
               In x (firstn 1 (perm1 ex_c4)) \/ In x (firstn 1 (perm2 ex_c4))).
Proof.
  intros H.
  assert (Hin : In 1 (firstn 2 (orderer ex_c4))) by (vm_compute; auto).
  apply H in Hin. vm_compute in Hin.
  destruct Hin as [[E|[]]|[E|[]]]; discriminate.
Qed.

(** C4 (amended). The Orderer output lists each of the [N] stars exactly
    once. For every [k], the interleaving emits, as a duplicate-free prefix
    of its output, exactly the union of the top-[k] stars by flux and the
    top-[k] stars by raw signal (that prefix has the size of the union, not
    [2 k]); the Orderer output is that interleaving whenever the
    uniformisation grid does not exist, and a reordering of it otherwise. *)
Theorem orderer_interleave_prefix ps k :
  Permutation (orderer ps) (seq 0 (length ps)) /\
  (exists pre suf,
     interleave ps = pre ++ suf /\ NoDup pre /\
     (forall x, In x pre <-> In x (firstn k (perm1 ps)) \/ In x (firstn k (perm2 ps)))) /\
  match grid_of ps (interleave ps) with
  | None => orderer ps = interleave ps
  | Some _ => True
  end.
Proof.
  split; [apply orderer_perm|]. split.
  - set (pre := interleave_from (firstn k (perm1 ps)) (firstn k (perm2 ps)) (length ps) []).
    destruct (interleave_extends (skipn k (perm1 ps)) (skipn k (perm2 ps)) (length ps) pre)
      as [suf Hsuf].
    destruct (interleave_elems (firstn k (perm1 ps)) (firstn k (perm2 ps)) (length ps) [])
      as [Hnd Hin].
    + rewrite !length_firstn, (Permutation_length (perm1_perm ps)),
              (Permutation_length (perm2_perm ps)). reflexivity.
    + constructor.
    + intros x [[]|[H|H]]; apply In_firstn_In in H.
      * apply (Permutation_in _ (perm1_perm ps)), in_seq in H. lia.
      * apply (Permutation_in _ (perm2_perm ps)), in_seq in H. lia.
    + exists pre, suf. split; [|split; [exact Hnd|]].
      * unfold interleave. rewrite (interleave_split k). exact Hsuf.
      * intros x. fold pre in Hin. rewrite Hin. simpl. tauto.
  - unfold orderer. destruct (grid_of ps (interleave ps)); reflexivity.
Qed.

(* ------------------------------------------------------------------------ *)
(** ** Claims about frame stacking *)

Lemma Qltb_true a b : Qltb a b = true -> (a < b)%Q.
Proof. unfold Qltb. intros H. apply Qnot_le_lt. intros H'.
  apply Qle_bool_iff in H'. rewrite H' in H. discriminate. Qed.

Lemma Qltb_false a b : Qltb a b = false -> (b <= a)%Q.
Proof. unfold Qltb. intros H. apply Qle_bool_iff. destruct (Qle_bool b a); [reflexivity | discriminate]. Qed.


(** The four coordinates of a correspondence set, in the reference frame:
    three collinear stars. In the new frame the third star is lifted off the
    line, so the triangle shapes still match within the tolerance. *)
Definition ex_ref_stars : list sstar := [(0, 0, 1); (1, 0, 1); (3, 0, 1)]%Q.
Definition ex_new_stars : list sstar := [(0, 0, 1); (1, 0, 1); (3, 1 # 10, 1)]%Q.
Definition ex_two_stars : list sstar := [(0, 0, 1); (1, 0, 1)]%Q.
Definition ex_pixels : list Z := [1; 2; 3; 4]%Z.
Definition ex_rand (n : nat) : nat := n.

(** A 2 x 2 accumulator holding one reference frame. *)
Definition ex_ctx1 : ctx := fst (add_frame (init_ctx 2 2) ex_pixels ex_ref_stars ex_rand).

(** C2. A failing [add_frame] (the [NULL] return, or [ok = 0]: too few
    stars for triangles, fewer than 3 correspondences, or RANSAC failure)
    leaves the sum buffer, the count buffer and [frame_count] unchanged. *)
Theorem add_frame_failure_unchanged c pixels stars rand c' r :
  add_frame c pixels stars rand = (c', r) ->
  (r = None \/ exists res, r = Some res /\ res_ok res = 0) ->
  sum_r c' = sum_r c /\ count c' = count c /\ frame_count c' = frame_count c.
Proof.
  unfold add_frame. intros Hrun Hfail.
  destruct (frame_count c =? 0).
  - destruct (form_triangles _ _).
    + injection Hrun as <- <-. destruct Hfail as [H|[res [H Hok]]]; [discriminate|].
      injection H as <-. discriminate.
    + injection Hrun as <- <-. repeat split.
  - destruct (form_triangles stars _) as [[|t ts]|];
      [injection Hrun as <- <-; repeat split | | injection Hrun as <- <-; repeat split].
    destruct (length _ <? 3); [injection Hrun as <- <-; repeat split|].
    destruct (ransac_affine _ _) as [[[aff inliers] rms]|];
      [|injection Hrun as <- <-; repeat split].
    injection Hrun as <- <-. destruct Hfail as [H|[res [H Hok]]]; [discriminate|].
    injection H as <-. discriminate.
Qed.

Lemma add_frame_failure_unchanged_witness :
  add_frame ex_ctx1 ex_pixels ex_two_stars ex_rand = (ex_ctx1, Some (failure ex_ctx1)) /\
  sum_r ex_ctx1 = sum_r ex_ctx1 /\ count ex_ctx1 = count ex_ctx1 /\
  frame_count ex_ctx1 = frame_count ex_ctx1.
Proof.
  assert (Hrun : add_frame ex_ctx1 ex_pixels ex_two_stars ex_rand
                 = (ex_ctx1, Some (failure ex_ctx1))) by (vm_compute; reflexivity).
  split; [exact Hrun|].
  apply (add_frame_failure_unchanged ex_ctx1 ex_pixels ex_two_stars ex_rand ex_ctx1
           (Some (failure ex_ctx1)) Hrun).
  right. exists (failure ex_ctx1). split; reflexivity.
Defined.

(** C5 (divergence). The second frame is aligned to the reference with 27
    inliers, but the affine map RANSAC keeps sends the new frame onto the
    reference line, so it is singular: [warp_and_accumulate] returns without
    [frame_count++], and [add_frame] still reports [ok = 1]. *)
Theorem add_frame_ok_without_increment :
  frame_count ex_ctx1 = 1 /\
  let '(c2, r) := add_frame ex_ctx1 ex_pixels ex_new_stars ex_rand in
  frame_count c2 = 1 /\ sum_r c2 = sum_r ex_ctx1 /\
  exists res, r = Some res /\ res_ok res = 1 /\ res_inliers res = 27 /\
              res_frame_count res = 1.
Proof.
  vm_compute. split; [reflexivity|]. split; [reflexivity|]. split; [reflexivity|].
  eexists. split; [reflexivity|]. repeat split.
Qed.










(** C10. [get_stacked] on an accumulator with [frame_count = 0] returns
    [NULL]: no image, rather than the all-zero [W * H] image. *)
Theorem get_stacked_no_frames c :
  frame_count c = 0 -> get_stacked c = None.
Proof. intros H. unfold get_stacked. rewrite H. reflexivity. Qed.

Lemma get_stacked_no_frames_witness :
  frame_count (init_ctx 2 2) = 0 /\ get_stacked (init_ctx 2 2) = None.
Proof.
  assert (H : frame_count (init_ctx 2 2) = 0) by reflexivity.
  split; [exact H | exact (get_stacked_no_frames _ H)].
Defined.

(** *** Triangle descriptors *)






Lemma sqrtf_compat q q' : (q == q')%Q -> sqrtf q = sqrtf q'.
Proof. intros H. unfold sqrtf. rewrite H. reflexivity. Qed.








(** *** Affine round trip *)






(* ------------------------------------------------------------------------ *)
(** ** Claim about the depth iteration *)

Definition windows_from (numStars k m : nat) : list (nat * nat) :=
  map (fun i => (10 * i, Nat.min (10 * i + 10) numStars))
      (filter (fun i => 10 * i <? numStars) (seq k m)).

Lemma filter_depths_beyond numStars k m :
  numStars <= 10 * k -> filter (fun i => 10 * i <? numStars) (seq k m) = [].
Proof.
  revert k; induction m as [|m IH]; intros k Hk; [reflexivity|].
  cbn [seq filter]. destruct (Nat.ltb_spec (10 * k) numStars); [lia|]. apply IH. lia.
Qed.

Lemma depth_loop_windows solver_run numStars k m :
  depth_loop solver_run (map (fun i => 10 * S i) (seq k m)) (10 * k) numStars =
  (upto_solved solver_run (windows_from numStars k m),
   existsb (fun w => solver_run (fst w) (snd w)) (windows_from numStars k m)).
Proof.
  revert k; induction m as [|m IH]; intros k; [reflexivity|].
  unfold windows_from. cbn [seq map depth_loop filter].
  destruct (Nat.leb_spec numStars (10 * k)) as [Hle|Hlt].
  - destruct (Nat.ltb_spec (10 * k) numStars); [lia|].
    rewrite filter_depths_beyond by lia. reflexivity.
  - destruct (Nat.ltb_spec (10 * k) numStars); [|lia].
    replace (if numStars <? 10 * S k then numStars else 10 * S k)
      with (Nat.min (10 * k + 10) numStars)
      by (destruct (Nat.ltb_spec numStars (10 * S k)); lia).
    cbn [map upto_solved existsb fst snd].
    destruct (solver_run (10 * k) (Nat.min (10 * k + 10) numStars)); [reflexivity|].
    specialize (IH (S k)). unfold windows_from in IH. rewrite IH. reflexivity.
Qed.

(** C8. The plate solve tries the windows [[10 i, min (10 i + 10, N))] of
    the schedule 10, 20, ..., 200 in order, each starting where the
    previous one ended, skipping those that would start at or past the star
    count [N]; it stops at the first window that solves, and when no window
    solves the 12-value result is all zeros ([solved = 0]). *)
Theorem solve_field_depths solver_run wcs_values numStars :
  snd (solve_field solver_run wcs_values numStars)
    = upto_solved solver_run (spec_windows numStars) /\
  fst (solve_field solver_run wcs_values numStars)
    = if existsb (fun w => solver_run (fst w) (snd w)) (spec_windows numStars)
      then 1%Q :: firstn 11 (wcs_values ++ repeat 0%Q 11)
      else repeat 0%Q 12.
Proof.
  unfold solve_field. pose proof (depth_loop_windows solver_run numStars 0 20) as H.
  change (map (fun i => 10 * S i) (seq 0 20)) with depths in H.
  change (10 * 0) with 0 in H. rewrite H. split; reflexivity.
Qed.

(* ======================================================================== *)
(** * Further properties of the native code *)

(** ** Sortedness of the insertion sorts *)

(** [l] is ordered by [R] between neighbours. *)
Fixpoint chain {A} (R : A -> A -> Prop) (l : list A) : Prop :=
  match l with
  | x :: ((y :: _) as t) => R x y /\ chain R t
  | _ => True
  end.

Section InsertionSortSorted.
Context {A : Type}.
Variable shift : A -> A -> bool.
(** An element that [key] must pass is never one that must pass [key]. *)
Hypothesis shift_asym : forall x y, shift x y = true -> shift y x = false.

(** The reversed prefix: its head is the last element of the sorted run. *)
Definition rchain (r : list A) : Prop := chain (fun a b => shift b a = false) r.

Lemma ins_rev_head key r :
  exists t, ins_rev shift key r = key :: t \/ exists p r', r = p :: r' /\ ins_rev shift key r = p :: t.
Proof.
  destruct r as [|p r]; simpl.
  - exists []. left. reflexivity.
  - destruct (shift p key); [exists (ins_rev shift key r) | exists (p :: r)].
    + right. exists p, r. split; reflexivity.
    + left. reflexivity.
Qed.

Lemma ins_rev_rchain key r : rchain r -> rchain (ins_rev shift key r).
Proof.
  induction r as [|p r IH]; intros Hr; simpl; [exact I|].
  destruct (shift p key) eqn:Hpk.
  - assert (Hr' : rchain r) by (destruct r; [exact I | exact (proj2 Hr)]).
    specialize (IH Hr').
    destruct (ins_rev_head key r) as [t [Ht | [p' [r' [-> Ht]]]]];
      unfold rchain in *; rewrite Ht in *; simpl.
    + split; [apply shift_asym, Hpk | exact IH].
    + split; [exact (proj1 Hr) | exact IH].
  - unfold rchain in *. simpl. split; [exact Hpk | exact Hr].
Qed.

Lemma fold_ins_rchain l r :
  rchain r -> rchain (fold_left (fun racc key => ins_rev shift key racc) l r).
Proof.
  revert r; induction l as [|a l IH]; intros r Hr; simpl; [exact Hr|].
  apply IH, ins_rev_rchain, Hr.
Qed.

Lemma chain_nth {B} (R : B -> B -> Prop) l d k :
  chain R l -> S k < length l -> R (nth k l d) (nth (S k) l d).
Proof.
  revert k; induction l as [|x l IH]; intros k Hc Hk; simpl in Hk; [lia|].
  destruct l as [|y l]; simpl in Hk; [lia|].
  destruct k as [|k]; [exact (proj1 Hc)|].
  apply (IH k (proj2 Hc)). simpl. lia.
Qed.

(** Neighbours of the sorted list never need to be swapped. *)
Lemma insertion_sort_sorted l d k :
  S k < length (insertion_sort shift l) ->
  shift (nth k (insertion_sort shift l) d) (nth (S k) (insertion_sort shift l) d) = false.
Proof.
  unfold insertion_sort.
  set (r := fold_left (fun racc key => ins_rev shift key racc) l []).
  assert (Hr : rchain r) by (apply fold_ins_rchain; exact I).
  rewrite length_rev. intros Hk.
  rewrite !rev_nth by lia.
  set (j := length r - S (S k)).
  replace (length r - S k) with (S j) by (unfold j; lia).
  apply (chain_nth _ r d j Hr). unfold j. lia.
Qed.
End InsertionSortSorted.

Lemma Qltb_asym x y : Qltb x y = true -> Qltb y x = false.
Proof.
  intros H. apply Qltb_true in H. unfold Qltb.
  assert (H' : Qle_bool x y = true) by (apply Qle_bool_iff, Qlt_le_weak, H).
  rewrite H'. reflexivity.
Qed.

Lemma map_nth_seq_all {A B} (g : A -> B) (l : list A) d :
  map (fun i => g (nth i l d)) (seq 0 (length l)) = map g l.
Proof.
  induction l as [|a l IH]; [reflexivity|].
  simpl. f_equal. rewrite <- seq_shift, map_map. exact IH.
Qed.

(** ** Star detection *)

(** X: [perm1] lists the peaks by background-subtracted flux, brightest
    first: neighbours are in non-increasing order of flux. *)
Theorem perm1_flux_nonincreasing ps k :
  S k < length (perm1 ps) ->
  (sflux (star_at ps (nth (S k) (perm1 ps) 0%nat)) <= sflux (star_at ps (nth k (perm1 ps) 0%nat)))%Q.
Proof.
  intros Hk. apply Qltb_false.
  exact (insertion_sort_sorted
           (fun p key => Qltb (sflux (star_at ps p)) (sflux (star_at ps key)))
           (fun x y => Qltb_asym _ _) (seq 0 (length ps)) 0 k Hk).
Qed.

Lemma perm1_flux_nonincreasing_witness :
  1 < length (perm1 ex_c3) /\
  (sflux (star_at ex_c3 (nth 1%nat (perm1 ex_c3) 0%nat)) <= sflux (star_at ex_c3 (nth 0%nat (perm1 ex_c3) 0%nat)))%Q.
Proof.
  assert (H : 1 < length (perm1 ex_c3)) by (vm_compute; lia).
  split; [exact H | exact (perm1_flux_nonincreasing ex_c3 0 H)].
Defined.

(** X: [perm2] lists the peaks by raw signal (flux + background), brightest
    first. *)
Theorem perm2_rawsignal_nonincreasing ps k :
  S k < length (perm2 ps) ->
  (rawsignal ps (nth (S k) (perm2 ps) 0%nat) <= rawsignal ps (nth k (perm2 ps) 0%nat))%Q.
Proof.
  intros Hk. apply Qltb_false.
  exact (insertion_sort_sorted (fun p key => Qltb (rawsignal ps p) (rawsignal ps key))
           (fun x y => Qltb_asym _ _) (seq 0 (length ps)) 0 k Hk).
Qed.

Lemma perm2_rawsignal_nonincreasing_witness :
  1 < length (perm2 ex_c3) /\
  (rawsignal ex_c3 (nth 1%nat (perm2 ex_c3) 0%nat) <= rawsignal ex_c3 (nth 0%nat (perm2 ex_c3) 0%nat))%Q.
Proof.
  assert (H : 1 < length (perm2 ex_c3)) by (vm_compute; lia).
  split; [exact H | exact (perm2_rawsignal_nonincreasing ex_c3 0 H)].
Defined.

(** X: When detection succeeds with at least one peak, the returned array
    holds every detected peak's [(x, y, flux)] exactly once, reordered. *)
Theorem detect_returns_all_peaks ps :
  ps <> [] ->
  exists l, detect 0%Z ps = Some l /\
            Permutation l (map (fun s => (sx s, sy s, sflux s)) ps).
Proof.
  intros Hne. unfold detect.
  destruct ps as [|p ps']; [contradiction|]. simpl negb. simpl orb.
  eexists. split; [reflexivity|].
  set (ps := p :: ps').
  rewrite (Permutation_map _ (orderer_perm ps)).
  unfold star_at. rewrite (map_nth_seq_all (fun st => (sx st, sy st, sflux st))). reflexivity.
Qed.

Lemma detect_returns_all_peaks_witness :
  ex_c4 <> [] /\
  exists l, detect 0%Z ex_c4 = Some l /\
            Permutation l (map (fun s => (sx s, sy s, sflux s)) ex_c4).
Proof.
  assert (H : ex_c4 <> []) by discriminate.
  split; [exact H | exact (detect_returns_all_peaks ex_c4 H)].
Defined.

(** X: Every star gets a bin index inside the grid, [0 <= bin < NX * NY],
    so the per-bin arrays of the uniformisation are indexed in bounds. *)
Theorem bin_of_in_grid ps order g s :
  grid_of ps order = Some g -> bin_of g s < nbins g.
Proof.
  intros Hg. destruct (grid_of_pos _ _ _ Hg) as [HX HY]. apply bin_of_lt; assumption.
Qed.

Lemma bin_of_in_grid_witness :
  grid_of ex_c3 (interleave ex_c3) = Some ex_c3_grid /\
  bin_of ex_c3_grid (mk_star 100 (-5) 1 0) < nbins ex_c3_grid.
Proof.
  assert (H : grid_of ex_c3 (interleave ex_c3) = Some ex_c3_grid) by (vm_compute; reflexivity).
  split; [exact H | exact (bin_of_in_grid _ _ _ _ H)].
Defined.

(** ** Plate solve *)

Lemma upto_solved_incl solver_run ws w :
  In w (upto_solved solver_run ws) -> In w ws.
Proof.
  induction ws as [|w' ws IH]; simpl; [tauto|].
  destruct (solver_run (fst w') (snd w')); simpl; intuition.
Qed.

(** X: The solver is only ever run on a nonempty window of stars inside the
    field: every window [[startobj, endobj)] tried satisfies
    [startobj < endobj <= numStars] and [endobj <= 200]. *)
Theorem solve_field_windows_in_range solver_run wcs_values numStars s e :
  In (s, e) (snd (solve_field solver_run wcs_values numStars)) ->
  s < e /\ e <= numStars /\ e <= 200.
Proof.
  unfold solve_field. pose proof (depth_loop_windows solver_run numStars 0 20) as H.
  change (map (fun i => 10 * S i) (seq 0 20)) with depths in H.
  change (10 * 0) with 0 in H. rewrite H. simpl snd.
  intros Hin. apply upto_solved_incl in Hin.
  unfold windows_from in Hin. apply in_map_iff in Hin as [i [Heq Hi]].
  apply filter_In in Hi as [Hi Hlt]. apply in_seq in Hi.
  apply Nat.ltb_lt in Hlt. injection Heq as <- <-. lia.
Qed.

Lemma solve_field_windows_in_range_witness :
  In (20, 25) (snd (solve_field (fun _ _ => false) [] 25)) /\
  20 < 25 /\ 25 <= 25 /\ 25 <= 200.
Proof.
  assert (H : In (20, 25) (snd (solve_field (fun _ _ => false) [] 25)))
    by (vm_compute; tauto).
  split; [exact H | exact (solve_field_windows_in_range _ _ _ _ _ H)].
Defined.

(** ** Triangle formation and matching *)

Lemma NoDup_firstn_ {A} (l : list A) k : NoDup l -> NoDup (firstn k l).
Proof.
  intros H. rewrite <- (firstn_skipn k l) in H. exact (NoDup_app_remove_r _ _ H).
Qed.

Lemma nearest_props stars m i :
  NoDup (nearest stars m i) /\
  (forall j, In j (nearest stars m i) -> j < m /\ j <> i) /\
  length (nearest stars m i) <= NUM_NEIGHBORS.
Proof.
  unfold nearest.
  set (L := filter (fun j => negb (i =? j)) (seq 0 m)).
  set (f := fun j => (dist2 (sx3 (star3 stars i)) (sy3 (star3 stars i))
                            (sx3 (star3 stars j)) (sy3 (star3 stars j)), j)).
  set (S := insertion_sort (fun p key => Qltb (fst key) (fst p)) (map f L)).
  assert (HP : Permutation (map snd S) L).
  { unfold S. rewrite (Permutation_map snd (insertion_sort_perm _ _)).
    rewrite map_map. unfold f. simpl. rewrite map_id. reflexivity. }
  rewrite <- firstn_map.
  refine (conj _ (conj _ _)).
  - apply NoDup_firstn_. rewrite HP. apply NoDup_filter, seq_NoDup.
  - intros j Hj. apply In_firstn_In in Hj. rewrite HP in Hj.
    unfold L in Hj. apply filter_In in Hj as [Hj Hne]. apply in_seq in Hj.
    apply negb_true_iff, Nat.eqb_neq in Hne. split; [lia | congruence].
  - rewrite length_firstn. apply Nat.le_min_l.
Qed.

Lemma pairs_In n a b : In (a, b) (pairs n) -> a < b < n.
Proof.
  unfold pairs. intros H. apply in_flat_map in H as [a' [Ha' H]].
  apply in_map_iff in H as [b' [Heq Hb']]. injection Heq as <- <-.
  apply in_seq in Ha'. apply in_seq in Hb'. lia.
Qed.

Lemma pairs_length_le n : n <= NUM_NEIGHBORS -> length (pairs n) <= MAX_TRIANGLES_PER_STAR.
Proof.
  unfold NUM_NEIGHBORS, MAX_TRIANGLES_PER_STAR. intros H.
  destruct n as [|[|[|[|[|[|n]]]]]]; vm_compute; lia.
Qed.

Lemma make_triangle_perm stars i a b t :
  make_triangle stars i a b = Some t -> Permutation (star_indices t) [b; a; i].
Proof.
  unfold make_triangle. cbv zeta.
  match goal with |- context [if ?c then _ else _] => destruct c end; [discriminate|].
  match goal with |- context [sort_sides ?l] =>
    pose proof (Permutation_map snd (insertion_sort_perm (fun p key => Qltb (fst key) (fst p)) l)) as HP;
    change (insertion_sort (fun p key => Qltb (fst key) (fst p)) l) with (sort_sides l) in HP;
    destruct (sort_sides l) as [|[s0 v0] [|[s1 v1] [|[s2 v2] [|]]]]; try discriminate
  end.
  intros H. injection H as <-. exact HP.
Qed.

Lemma length_flat_map_le {A B} (f : A -> list B) l k :
  (forall x, In x l -> length (f x) <= k) -> length (flat_map f l) <= k * length l.
Proof.
  induction l as [|x l IH]; intros H; simpl; [lia|].
  rewrite length_app. specialize (H x (or_introl eq_refl)) as Hx.
  assert (length (flat_map f l) <= k * length l) by (apply IH; intros; apply H; right; assumption).
  lia.
Qed.

Lemma triangles_of_star_length stars m i :
  length (triangles_of_star stars m i) <= MAX_TRIANGLES_PER_STAR.
Proof.
  unfold triangles_of_star.
  destruct (nearest_props stars m i) as [_ [_ Hlen]].
  apply (Nat.le_trans _ (length (pairs (length (nearest stars m i))))).
  - induction (pairs (length (nearest stars m i))) as [|[a b] ps IH]; simpl; [lia|].
    destruct (make_triangle _ _ _ _); simpl; lia.
  - apply pairs_length_le. exact Hlen.
Qed.

(** X: Each triangle [form_triangles] yields names three distinct stars,
    all among the first [min(num_stars, MAX_STACKING_STARS)] stars it was
    allowed to use. *)
Theorem form_triangles_indices stars n ts t :
  form_triangles stars n = Some ts -> In t ts ->
  length (star_indices t) = 3 /\ NoDup (star_indices t) /\
  (forall v, In v (star_indices t) -> v < Nat.min n MAX_STACKING_STARS).
Proof.
  unfold form_triangles. destruct (n <? 3); [discriminate|].
  intros H Ht; injection H as <-.
  apply in_flat_map in Ht as [i [Hi Ht]]. apply in_seq in Hi.
  unfold triangles_of_star in Ht. apply in_flat_map in Ht as [[a b] [Hab Ht]].
  apply pairs_In in Hab.
  set (nb := nearest stars (Nat.min n MAX_STACKING_STARS) i) in *.
  destruct (make_triangle stars i (nth a nb 0) (nth b nb 0)) as [t'|] eqn:E; [|contradiction].
  destruct Ht as [<- | []]. apply make_triangle_perm in E.
  destruct (nearest_props stars (Nat.min n MAX_STACKING_STARS) i) as [Hnd [Hin _]].
  fold nb in Hnd, Hin.
  assert (Ha := Hin _ (nth_In nb 0 (proj1 (conj (Nat.lt_trans _ _ _ (proj1 Hab) (proj2 Hab)) I)))).
  assert (Hb := Hin _ (nth_In nb 0 (proj2 Hab))).
  assert (Hne : nth a nb 0 <> nth b nb 0).
  { intros Heq. apply (proj1 (NoDup_nth nb 0) Hnd) in Heq; lia. }
  refine (conj (Permutation_length E) (conj _ _)).
  - apply (Permutation_NoDup (Permutation_sym E)).
    repeat constructor; simpl; intuition.
  - intros v Hv. apply (Permutation_in _ E) in Hv. simpl in Hv. intuition (subst; lia).
Qed.

Definition ex_ref_tris : list triangle :=
  match form_triangles ex_ref_stars 3 with Some ts => ts | None => [] end.

Lemma form_triangles_indices_witness :
  form_triangles ex_ref_stars 3 = Some ex_ref_tris /\
  In (hd (mk_triangle 0 0 []) ex_ref_tris) ex_ref_tris /\
  length (star_indices (hd (mk_triangle 0 0 []) ex_ref_tris)) = 3.
Proof.
  assert (H1 : form_triangles ex_ref_stars 3 = Some ex_ref_tris) by (vm_compute; reflexivity).
  assert (H2 : In (hd (mk_triangle 0 0 []) ex_ref_tris) ex_ref_tris) by (vm_compute; left; reflexivity).
  refine (conj H1 (conj H2 _)).
  exact (proj1 (form_triangles_indices _ _ _ _ H1 H2)).
Defined.

(** X: [form_triangles] never produces more than [MAX_TRIANGLES_PER_STAR]
    triangles per used star, the size of the buffer it allocates: the
    [tri_idx >= max_triangles] guard never truncates the output. *)
Theorem form_triangles_count stars n ts :
  form_triangles stars n = Some ts ->
  length ts <= MAX_TRIANGLES_PER_STAR * Nat.min n MAX_STACKING_STARS.
Proof.
  unfold form_triangles. destruct (n <? 3); [discriminate|].
  intros H; injection H as <-.
  pose proof (length_flat_map_le (triangles_of_star stars (Nat.min n MAX_STACKING_STARS))
                (seq 0 (Nat.min n MAX_STACKING_STARS)) MAX_TRIANGLES_PER_STAR) as H.
  rewrite length_seq in H. apply H. intros i _. apply triangles_of_star_length.
Qed.

Lemma form_triangles_count_witness :
  form_triangles ex_ref_stars 3 = Some ex_ref_tris /\
  length ex_ref_tris <= MAX_TRIANGLES_PER_STAR * Nat.min 3 MAX_STACKING_STARS.
Proof.
  assert (H1 : form_triangles ex_ref_stars 3 = Some ex_ref_tris) by (vm_compute; reflexivity).
  exact (conj H1 (form_triangles_count _ _ _ H1)).
Defined.

Lemma match_inner_bound M tn tr rs ns ks acc :
  length acc <= M ->
  length (fold_left
    (fun acc k =>
       if M <=? length acc then acc
       else acc ++ [mk_corr (sx3 (star3 rs (nth k (star_indices tr) 0)))
                            (sy3 (star3 rs (nth k (star_indices tr) 0)))
                            (sx3 (star3 ns (nth k (star_indices tn) 0)))
                            (sy3 (star3 ns (nth k (star_indices tn) 0)))]) ks acc) <= M.
Proof.
  revert acc; induction ks as [|k ks IH]; intros acc H; simpl; [exact H|].
  apply IH. destruct (Nat.leb_spec M (length acc)); [exact H|].
  rewrite length_app. simpl. lia.
Qed.

Lemma fold_left_length_bound {A C} (f : list C -> A -> list C) M l acc :
  (forall acc x, length acc <= M -> length (f acc x) <= M) ->
  length acc <= M -> length (fold_left f l acc) <= M.
Proof.
  intros Hf. revert acc; induction l as [|x l IH]; intros acc H; simpl; [exact H|].
  apply IH, Hf, H.
Qed.

(** X: [match_triangles] never writes more correspondences than the buffer
    it allocates: at most [min(num_ref_tri * num_new_tri * 3, 10000)]. *)
Theorem match_triangles_bounded ref_tri ref_stars new_tri new_stars :
  length (match_triangles ref_tri ref_stars new_tri new_stars)
    <= Nat.min (length ref_tri * length new_tri * 3) 10000.
Proof.
  unfold match_triangles.
  set (M := Nat.min (length ref_tri * length new_tri * 3) 10000).
  apply fold_left_length_bound; [|simpl; lia].
  intros acc [tn tr] H. cbv beta iota.
  destruct (ratios_match tn tr); [|exact H].
  apply match_inner_bound. exact H.
Qed.

(** ** Affine estimation *)

(** X: When [solve_affine_3pt] succeeds on a sample of three
    correspondences, the affine map it returns sends each sample's new-frame
    point exactly onto its reference point. *)
Theorem solve_affine_3pt_exact c0 c1 c2 aff :
  solve_affine_3pt [c0; c1; c2] = Some aff ->
  forall c, In c [c0; c1; c2] ->
  (fst (apply_affine aff (new_x c) (new_y c)) == ref_x c)%Q /\
  (snd (apply_affine aff (new_x c) (new_y c)) == ref_y c)%Q.
Proof.
  unfold solve_affine_3pt. cbv zeta.
  destruct (Qeq_bool _ 0) eqn:E; [discriminate|]. apply Qeq_bool_neq in E.
  intros H; injection H as <-.
  destruct c0 as [r0x r0y n0x n0y], c1 as [r1x r1y n1x n1y], c2 as [r2x r2y n2x n2y].
  simpl in E |- *. unfold det3 in *.
  intros c [<- | [<- | [<- | []]]]; simpl; split; field; intros Hz; apply E; (eapply Qeq_trans; [|exact Hz]; ring).
Qed.

Definition ex_id_corr : list correspondence :=
  [mk_corr 0 0 0 0; mk_corr 1 0 1 0; mk_corr 0 1 0 1]%Q.

Definition ex_id_aff : affine :=
  match solve_affine_3pt ex_id_corr with Some a => a | None => mk_affine 0 0 0 0 0 0 end.

Lemma solve_affine_3pt_exact_witness :
  solve_affine_3pt [mk_corr 0 0 0 0; mk_corr 1 0 1 0; mk_corr 0 1 0 1]%Q = Some ex_id_aff /\
  (fst (apply_affine ex_id_aff 1 0) == 1)%Q.
Proof.
  assert (H : solve_affine_3pt [mk_corr 0 0 0 0; mk_corr 1 0 1 0; mk_corr 0 1 0 1]%Q = Some ex_id_aff)
    by (vm_compute; reflexivity).
  split; [exact H|].
  exact (proj1 (solve_affine_3pt_exact _ _ _ _ H (mk_corr 1 0 1 0) (or_intror (or_introl eq_refl)))).
Defined.

(** X: The inverse computed by [invert_affine] also undoes the map from the
    other side: applying [M] and then [M^-1] to a point gives the point
    back, in exact arithmetic. *)
Theorem invert_affine_left_inverse aff inv x y :
  invert_affine aff = Some inv ->
  (fst (apply_affine inv (fst (apply_affine aff x y)) (snd (apply_affine aff x y))) == x)%Q /\
  (snd (apply_affine inv (fst (apply_affine aff x y)) (snd (apply_affine aff x y))) == y)%Q.
Proof.
  unfold invert_affine. destruct (Qltb _ _) eqn:E; [discriminate|].
  intros H. injection H as <-. apply Qltb_false in E.
  destruct aff as [a b c d tx ty]. simpl in *.
  assert (Hd : ~ (a * d - b * c == 0)%Q).
  { intros Hz. unfold Qabs_ in E. destruct (Qle_bool 0 (a * d - b * c)); lra. }
  split; field; exact Hd.
Qed.

Definition ex_rot : affine := mk_affine 0 (-1) 1 0 5 7.
Definition ex_rot_inv : affine :=
  match invert_affine ex_rot with Some i => i | None => ex_rot end.

Lemma invert_affine_left_inverse_witness :
  invert_affine ex_rot = Some ex_rot_inv /\
  (fst (apply_affine ex_rot_inv (fst (apply_affine ex_rot 2 3)) (snd (apply_affine ex_rot 2 3))) == 2)%Q.
Proof.
  assert (H : invert_affine ex_rot = Some ex_rot_inv) by (vm_compute; reflexivity).
  exact (conj H (proj1 (invert_affine_left_inverse _ _ 2 3 H))).
Defined.

Lemma pick_loop_lt rand n prev fuel cnt :
  n <> 0 -> fst (pick_loop rand n prev fuel cnt) < n.
Proof.
  intros Hn. revert cnt; induction fuel as [|f IH]; intros cnt; simpl;
    destruct (negb _); simpl; try (apply Nat.mod_upper_bound; exact Hn); apply IH.
Qed.

Lemma evaluate_inliers_le aff corr : fst (evaluate_affine aff corr) <= length corr.
Proof.
  unfold evaluate_affine. simpl. etransitivity; [apply filter_length_le|].
  rewrite length_map. reflexivity.
Qed.

(** What RANSAC keeps between iterations: the best transform so far comes
    from a sample of three correspondences and scores [best_inliers] and
    [best_rms]; without one, [best_inliers] is 0. *)
Definition ransac_inv (corr : list correspondence) (st : nat * nat * Q * option affine) : Prop :=
  let '(_, bi, br, best) := st in
  match best with
  | Some aff =>
      evaluate_affine aff corr = (bi, br) /\
      exists s, length s = 3 /\ (forall c, In c s -> In c corr) /\ solve_affine_3pt s = Some aff
  | None => bi = 0
  end.

Lemma ransac_iter_inv rand corr st :
  corr <> [] -> ransac_inv corr st -> ransac_inv corr (ransac_iter rand corr st).
Proof.
  intros Hne. destruct st as [[[cnt bi] br] best]. unfold ransac_iter.
  assert (Hn : length corr <> 0) by (destruct corr; [contradiction | discriminate]).
  destruct (pick_index rand (length corr) [] cnt) as [i0 cnt1] eqn:E0.
  destruct (pick_index rand (length corr) [i0] cnt1) as [i1 cnt2] eqn:E1.
  destruct (pick_index rand (length corr) [i0; i1] cnt2) as [i2 cnt3] eqn:E2.
  assert (Hlt : forall i p k c, pick_index rand (length corr) p k = (i, c) -> i < length corr).
  { intros i p k c E. unfold pick_index in E.
    pose proof (pick_loop_lt rand _ p 9 k Hn) as H. rewrite E in H. exact H. }
  destruct (solve_affine_3pt _) as [aff|] eqn:Es; [|tauto].
  destruct (evaluate_affine aff corr) as [inl rms] eqn:Ev.
  intros Hinv. destruct (_ || _); [|exact Hinv].
  split; [exact Ev|].
  exists (map (fun i => nth i corr no_corr) [i0; i1; i2]). refine (conj eq_refl (conj _ Es)).
  intros c Hc. simpl in Hc.
  destruct Hc as [<- | [<- | [<- | []]]]; apply nth_In; eauto.
Qed.

(** X: When [ransac_affine] succeeds, there were at least 3
    correspondences, the reported inlier count is between 1 and their
    number, the reported inliers and RMS are exactly those of the returned
    transform over all correspondences, and the transform is the one
    [solve_affine_3pt] fits to some sample of three of them. *)
Theorem ransac_affine_result rand corr aff inl rms :
  ransac_affine rand corr = Some (aff, inl, rms) ->
  3 <= length corr /\ 1 <= inl <= length corr /\
  evaluate_affine aff corr = (inl, rms) /\
  exists s, length s = 3 /\ (forall c, In c s -> In c corr) /\ solve_affine_3pt s = Some aff.
Proof.
  unfold ransac_affine. destruct (Nat.ltb_spec (length corr) 3) as [|Hlen]; [discriminate|].
  assert (Hne : corr <> []) by (intros ->; simpl in Hlen; lia).
  assert (Hi : ransac_inv corr (Nat.iter RANSAC_ITERATIONS (ransac_iter rand corr)
                                         (0, 0, inject_Z (10 ^ 9), None))).
  { generalize RANSAC_ITERATIONS as k. induction k as [|k IH]; [reflexivity|].
    simpl. apply ransac_iter_inv; assumption. }
  destruct (Nat.iter _ _ _) as [[[cnt bi] br] best]. simpl in Hi.
  destruct (Nat.eqb_spec bi 0) as [|Hbi]; [discriminate|].
  destruct best as [a|]; [|contradiction].
  intros H; injection H as <- <- <-.
  destruct Hi as [Hev Hs]. pose proof (evaluate_inliers_le a corr) as Hle.
  rewrite Hev in Hle. simpl in Hle. repeat split; auto; lia.
Qed.

Definition ex_ransac : affine * nat * Q :=
  match ransac_affine ex_rand ex_id_corr with
  | Some r => r
  | None => (mk_affine 0 0 0 0 0 0, 0, 0%Q)
  end.

Lemma ransac_affine_result_witness :
  ransac_affine ex_rand ex_id_corr
    = Some (fst (fst ex_ransac), snd (fst ex_ransac), snd ex_ransac) /\
  1 <= snd (fst ex_ransac) <= length ex_id_corr.
Proof.
  assert (H : ransac_affine ex_rand ex_id_corr
                = Some (fst (fst ex_ransac), snd (fst ex_ransac), snd ex_ransac))
    by (vm_compute; reflexivity).
  exact (conj H (proj1 (proj2 (ransac_affine_result _ _ _ _ _ H)))).
Defined.

(** ** Bilinear sampling *)

Lemma trunc_int_nonneg x : (0 <= x)%Q -> trunc_int x = Qfloor x.
Proof. intros H. unfold trunc_int. apply Qle_bool_iff in H. rewrite H. reflexivity. Qed.

Lemma pixel_range (image : list Z) k :
  Forall (fun p => (0 <= p <= 255)%Z) image ->
  (0 <= inject_Z (nth k image 0%Z) <= 255)%Q.
Proof.
  intros H. assert (Hz : (0 <= nth k image 0%Z <= 255)%Z).
  { destruct (Nat.lt_ge_cases k (length image)) as [Hk|Hk].
    - rewrite Forall_forall in H. apply H, nth_In, Hk.
    - rewrite nth_overflow by exact Hk. lia. }
  change 0%Q with (inject_Z 0). change 255%Q with (inject_Z 255).
  split; rewrite <- Zle_Qle; lia.
Qed.

(** X: With byte pixels (0..255), [bilinear_sample] returns a value in
    [[0, 255]] at every point: inside the image it is a convex combination
    of four pixels, outside it is 0. *)
Theorem bilinear_sample_range image W H x y :
  Forall (fun p => (0 <= p <= 255)%Z) image ->
  (0 <= bilinear_sample image W H x y <= 255)%Q.
Proof.
  intros Himg. unfold bilinear_sample.
  destruct (Qltb x 0) eqn:Ex; [simpl; lra|].
  destruct (Qltb y 0) eqn:Ey; [simpl; lra|].
  destruct (Qle_bool _ x); [simpl; lra|].
  destruct (Qle_bool _ y); [simpl; lra|]. simpl orb. cbv iota zeta.
  apply Qltb_false in Ex, Ey.
  rewrite !trunc_int_nonneg by assumption.
  pose proof (Qfloor_le x). pose proof (Qlt_floor x).
  pose proof (Qfloor_le y). pose proof (Qlt_floor y).
  rewrite inject_Z_plus in *. change (inject_Z 1) with 1%Q in *.
  set (fx := (x - inject_Z (Qfloor x))%Q). set (fy := (y - inject_Z (Qfloor y))%Q).
  assert (Hfx : (0 <= fx < 1)%Q) by (unfold fx; lra).
  assert (Hfy : (0 <= fy < 1)%Q) by (unfold fy; lra).
  set (p00 := inject_Z (nth (Z.to_nat (Qfloor y * Z.of_nat W + Qfloor x)) image 0%Z)).
  set (p01 := inject_Z (nth (Z.to_nat (Qfloor y * Z.of_nat W + (Qfloor x + 1))) image 0%Z)).
  set (p10 := inject_Z (nth (Z.to_nat ((Qfloor y + 1) * Z.of_nat W + Qfloor x)) image 0%Z)).
  set (p11 := inject_Z (nth (Z.to_nat ((Qfloor y + 1) * Z.of_nat W + (Qfloor x + 1))) image 0%Z)).
  assert (H00 := pixel_range image (Z.to_nat (Qfloor y * Z.of_nat W + Qfloor x)) Himg).
  assert (H01 := pixel_range image (Z.to_nat (Qfloor y * Z.of_nat W + (Qfloor x + 1))) Himg).
  assert (H10 := pixel_range image (Z.to_nat ((Qfloor y + 1) * Z.of_nat W + Qfloor x)) Himg).
  assert (H11 := pixel_range image (Z.to_nat ((Qfloor y + 1) * Z.of_nat W + (Qfloor x + 1))) Himg).
  fold p00 p01 p10 p11 in H00, H01, H10, H11.
  assert (Hv0 : (0 <= p00 * (1 - fx) + p01 * fx <= 255)%Q) by nra.
  assert (Hv1 : (0 <= p10 * (1 - fx) + p11 * fx <= 255)%Q) by nra.
  nra.
Qed.

Lemma ex_pixels_bytes : Forall (fun p => (0 <= p <= 255)%Z) ex_pixels.
Proof. apply Forall_forall. intros p Hp. simpl in Hp. intuition (subst; lia). Qed.

Lemma bilinear_sample_range_witness :
  Forall (fun p => (0 <= p <= 255)%Z) ex_pixels /\
  (0 <= bilinear_sample ex_pixels 2 2 (1 # 2) (1 # 3) <= 255)%Q.
Proof.
  exact (conj ex_pixels_bytes (bilinear_sample_range _ 2 2 (1 # 2) (1 # 3) ex_pixels_bytes)).
Defined.

(** ** The accumulator *)

(** What [add_frame] keeps of a context: buffers of [width * height]
    pixels, no pixel counted more often than there are frames, and each sum
    within [[0, 255 * count]]. *)
Definition acc_inv (c : ctx) : Prop :=
  length (sum_r c) = width c * height c /\
  length (count c) = width c * height c /\
  forall i, i < width c * height c ->
    nth i (count c) 0 <= frame_count c /\
    (0 <= nth i (sum_r c) 0 <= 255 * inject_Z (Z.of_nat (nth i (count c) 0%nat)))%Q.

Lemma nth_map_seq {B} (f : nat -> B) n i d : i < n -> nth i (map f (seq 0 n)) d = f i.
Proof.
  intros Hi. rewrite (nth_indep _ d (f 0)) by (rewrite length_map, length_seq; exact Hi).
  rewrite map_nth, seq_nth by exact Hi. reflexivity.
Qed.

Lemma init_ctx_inv w h : acc_inv (init_ctx w h).
Proof.
  unfold acc_inv, init_ctx. simpl. rewrite !repeat_length.
  refine (conj eq_refl (conj eq_refl _)). intros i Hi.
  rewrite !nth_repeat_lt by exact Hi. split; [lia|]. change (inject_Z (Z.of_nat 0)) with 0%Q. lra.
Qed.

Lemma accumulate_inv c f :
  acc_inv c -> (forall idx v, f idx = Some v -> (0 <= v <= 255)%Q) ->
  acc_inv (accumulate c f).
Proof.
  intros [Hs [Hc Hi]] Hf. unfold acc_inv, accumulate. simpl.
  rewrite !length_map, !length_seq. refine (conj eq_refl (conj eq_refl _)).
  intros i Hlt. rewrite !nth_map_seq by exact Hlt.
  destruct (Hi i Hlt) as [Hcnt Hsum].
  destruct (f i) as [v|] eqn:Ev; [|split; [lia | exact Hsum]].
  apply Hf in Ev. split; [lia|].
  rewrite Nat2Z.inj_succ, <- Z.add_1_r, inject_Z_plus. change (inject_Z 1) with 1%Q. lra.
Qed.

Lemma warp_and_accumulate_inv c image aff :
  acc_inv c -> Forall (fun p => (0 <= p <= 255)%Z) image ->
  acc_inv (warp_and_accumulate c image aff).
Proof.
  intros Hc Himg. unfold warp_and_accumulate.
  destruct (invert_affine aff) as [inv|]; [|exact Hc].
  apply accumulate_inv; [exact Hc|]. intros idx v.
  destruct (apply_affine _ _ _) as [sx sy].
  destruct (_ && _); [|discriminate]. intros H; injection H as <-.
  apply bilinear_sample_range, Himg.
Qed.

(** X: With byte pixels, every [add_frame] call keeps the accumulator
    consistent: the image size is unchanged, both buffers keep
    [width * height] entries, no pixel's count exceeds [frame_count], and
    each pixel's sum stays within [[0, 255 * count]]. *)
Theorem add_frame_keeps_inv c pixels stars rand :
  acc_inv c -> Forall (fun p => (0 <= p <= 255)%Z) pixels ->
  acc_inv (fst (add_frame c pixels stars rand)) /\
  width (fst (add_frame c pixels stars rand)) = width c /\
  height (fst (add_frame c pixels stars rand)) = height c.
Proof.
  intros Hc Hpx. unfold add_frame.
  destruct (frame_count c =? 0).
  - destruct (form_triangles _ _); simpl; [|auto].
    split; [|auto]. apply accumulate_inv; [exact Hc|].
    intros idx v H; injection H as <-. apply pixel_range, Hpx.
  - destruct (form_triangles _ _) as [[|t ts]|]; simpl; [auto| |auto].
    destruct (length _ <? 3); simpl; [auto|].
    destruct (ransac_affine _ _) as [[[aff inl] rms]|]; simpl; [|auto].
    split; [apply warp_and_accumulate_inv; assumption|].
    unfold warp_and_accumulate. destruct (invert_affine aff); auto.
Qed.

Lemma add_frame_keeps_inv_witness :
  acc_inv (init_ctx 2 2) /\ Forall (fun p => (0 <= p <= 255)%Z) ex_pixels /\
  acc_inv (fst (add_frame (init_ctx 2 2) ex_pixels ex_ref_stars ex_rand)).
Proof.
  refine (conj (init_ctx_inv 2 2) (conj ex_pixels_bytes _)).
  exact (proj1 (add_frame_keeps_inv _ _ _ _ (init_ctx_inv 2 2) ex_pixels_bytes)).
Defined.

(** X: [add_frame] raises [frame_count] by at most one, and the frame count
    it reports in its result array is always the context's [frame_count]
    after the call. *)
Theorem add_frame_reported_count c pixels stars rand :
  (frame_count (fst (add_frame c pixels stars rand)) = frame_count c \/
   frame_count (fst (add_frame c pixels stars rand)) = S (frame_count c)) /\
  match snd (add_frame c pixels stars rand) with
  | Some r => res_frame_count r = frame_count (fst (add_frame c pixels stars rand))
  | None => True
  end.
Proof.
  unfold add_frame.
  destruct (Nat.eqb_spec (frame_count c) 0) as [H0|H0].
  - destruct (form_triangles _ _); simpl; [rewrite H0|]; auto.
  - destruct (form_triangles _ _) as [[|t ts]|]; simpl; [auto| |auto].
    destruct (length _ <? 3); simpl; [auto|].
    destruct (ransac_affine _ _) as [[[aff inl] rms]|]; simpl; [|auto].
    split; [|reflexivity].
    unfold warp_and_accumulate. destruct (invert_affine aff); simpl; auto.
Qed.

Lemma nth_byte (image : list Z) k :
  Forall (fun p => (0 <= p <= 255)%Z) image -> (0 <= nth k image 0%Z <= 255)%Z.
Proof.
  intros H. destruct (Nat.lt_ge_cases k (length image)) as [Hk|Hk].
  - rewrite Forall_forall in H. apply H, nth_In, Hk.
  - rewrite nth_overflow by exact Hk. lia.
Qed.

Lemma Qfloor_half (p : Z) : Qfloor (inject_Z p + (1 # 2)) = p.
Proof.
  pose proof (Qfloor_le (inject_Z p + (1 # 2))) as H1.
  pose proof (Qlt_floor (inject_Z p + (1 # 2))) as H2.
  set (z := Qfloor _) in *.
  rewrite inject_Z_plus in H2. change (inject_Z 1) with 1%Q in H2.
  assert (A : (inject_Z z < inject_Z (p + 1))%Q).
  { rewrite inject_Z_plus. change (inject_Z 1) with 1%Q. lra. }
  assert (B : (inject_Z p < inject_Z (z + 1))%Q).
  { rewrite inject_Z_plus. change (inject_Z 1) with 1%Q. lra. }
  rewrite <- Zlt_Qlt in A, B. lia.
Qed.

Lemma round_single_byte (p : Z) :
  (0 <= p <= 255)%Z ->
  clamp_byte (trunc_int ((0 + inject_Z p) / inject_Z (Z.of_nat 1) + (1 # 2))) = p.
Proof.
  intros Hp.
  assert (Heq : ((0 + inject_Z p) / inject_Z (Z.of_nat 1) + (1 # 2) == inject_Z p + (1 # 2))%Q)
    by (change (inject_Z (Z.of_nat 1)) with 1%Q; field).
  assert (Hge : (0 <= inject_Z p)%Q) by (change 0%Q with (inject_Z 0); rewrite <- Zle_Qle; lia).
  rewrite trunc_int_nonneg by (rewrite Heq; lra).
  rewrite (Qfloor_comp _ _ Heq), Qfloor_half.
  unfold clamp_byte. destruct (Z.ltb_spec p 0); [lia|]. destruct (Z.ltb_spec 255 p); [lia|]. reflexivity.
Qed.

(** X: Stacking a single frame gives the frame back: on a fresh
    [width x height] accumulator, a first [add_frame] with [width * height]
    byte pixels and at least 3 stars, followed by [get_stacked], returns
    exactly the input pixels. *)
Theorem stack_single_frame w h pixels stars rand :
  length pixels = w * h -> Forall (fun p => (0 <= p <= 255)%Z) pixels -> 3 <= length stars ->
  get_stacked (fst (add_frame (init_ctx w h) pixels stars rand)) = Some pixels.
Proof.
  intros Hlen Hpx Hst. unfold add_frame. cbn [frame_count init_ctx Nat.eqb].
  set (nref := Nat.min (length stars) MAX_STACKING_STARS).
  assert (Hts : exists ts, form_triangles (firstn nref stars) nref = Some ts).
  { unfold form_triangles. destruct (Nat.ltb_spec nref 3) as [Hlt|_]; [|eexists; reflexivity].
    unfold nref, MAX_STACKING_STARS in Hlt. lia. }
  destruct Hts as [ts ->]. unfold get_stacked, accumulate, init_ctx.
  cbn [fst frame_count width height sum_r count Nat.eqb]. f_equal.
  rewrite <- Hlen.
  etransitivity; [|exact (eq_trans (map_nth_seq_all id pixels 0%Z) (map_id pixels))].
  apply map_ext_in. intros i Hi. apply in_seq in Hi.
  rewrite !nth_map_seq by lia. rewrite !nth_repeat_lt by lia.
  cbn [Nat.ltb Nat.leb]. apply round_single_byte, nth_byte, Hpx.
Qed.

Lemma stack_single_frame_witness :
  length ex_pixels = 2 * 2 /\ Forall (fun p => (0 <= p <= 255)%Z) ex_pixels /\
  3 <= length ex_ref_stars /\
  get_stacked (fst (add_frame (init_ctx 2 2) ex_pixels ex_ref_stars ex_rand)) = Some ex_pixels.
Proof.
  assert (H1 : length ex_pixels = 2 * 2) by reflexivity.
  assert (H3 : 3 <= length ex_ref_stars) by (simpl; lia).
  exact (conj H1 (conj ex_pixels_bytes (conj H3
           (stack_single_frame 2 2 ex_pixels ex_ref_stars ex_rand H1 ex_pixels_bytes H3)))).
Defined.

(** ** Where correspondences come from *)

Lemma fold_left_In_inv {A C} (f : list C -> A -> list C) (Q : C -> Prop) l acc c :
  (forall acc x c, In x l -> In c (f acc x) -> In c acc \/ Q c) ->
  In c (fold_left f l acc) -> In c acc \/ Q c.
Proof.
  revert acc; induction l as [|x l IH]; intros acc Hf Hc; simpl in Hc; [left; exact Hc|].
  assert (Hf' : forall acc x c, In x l -> In c (f acc x) -> In c acc \/ Q c)
    by (intros acc' x' c' Hx; apply (Hf acc' x' c'); right; exact Hx).
  destruct (IH (f acc x) Hf' Hc) as [H|H]; [|right; exact H].
  exact (Hf acc x c (or_introl eq_refl) H).
Qed.

(** X: Every correspondence [match_triangles] returns pairs the [k]-th
    vertex of a new triangle with the [k]-th vertex of a reference triangle
    ([k < 3]) whose two side ratios agree within the tolerance. *)
Theorem match_triangles_provenance ref_tri ref_stars new_tri new_stars c :
  In c (match_triangles ref_tri ref_stars new_tri new_stars) ->
  exists tn tr k, In tn new_tri /\ In tr ref_tri /\ ratios_match tn tr = true /\ k < 3 /\
    c = mk_corr (sx3 (star3 ref_stars (nth k (star_indices tr) 0)))
                (sy3 (star3 ref_stars (nth k (star_indices tr) 0)))
                (sx3 (star3 new_stars (nth k (star_indices tn) 0)))
                (sy3 (star3 new_stars (nth k (star_indices tn) 0))).
Proof.
  unfold match_triangles. intros Hc. pattern c.
  match goal with |- ?Q c => eapply (fold_left_In_inv _ Q) in Hc as [[]|Hc]; [exact Hc|] end.
  intros acc [tn tr] c' Hx Hc'. apply in_prod_iff in Hx as [Htn Htr].
  cbv beta iota in Hc'. destruct (ratios_match tn tr) eqn:Em; [|left; exact Hc'].
  apply (fold_left_In_inv _
           (fun c0 => exists k, k < 3 /\
              c0 = mk_corr (sx3 (star3 ref_stars (nth k (star_indices tr) 0)))
                           (sy3 (star3 ref_stars (nth k (star_indices tr) 0)))
                           (sx3 (star3 new_stars (nth k (star_indices tn) 0)))
                           (sy3 (star3 new_stars (nth k (star_indices tn) 0)))))
    in Hc' as [Hc'|[k [Hk ->]]].
  - left. exact Hc'.
  - right. exists tn, tr, k. repeat split; assumption.
  - intros acc' k c'' Hk Hin. simpl in Hk.
    destruct (_ <=? _); [left; exact Hin|].
    apply in_app_or in Hin as [Hin|[<-|[]]]; [left; exact Hin|].
    right. exists k. split; [intuition lia | reflexivity].
Qed.

Definition ex_new_tris : list triangle :=
  match form_triangles ex_new_stars 3 with Some ts => ts | None => [] end.

Definition ex_corr : list correspondence :=
  match_triangles ex_ref_tris ex_ref_stars ex_new_tris ex_new_stars.

Lemma match_triangles_provenance_witness :
  In (hd no_corr ex_corr) (match_triangles ex_ref_tris ex_ref_stars ex_new_tris ex_new_stars) /\
  exists tn tr k, In tn ex_new_tris /\ In tr ex_ref_tris /\ ratios_match tn tr = true /\ k < 3 /\
    hd no_corr ex_corr =
      mk_corr (sx3 (star3 ex_ref_stars (nth k (star_indices tr) 0)))
              (sy3 (star3 ex_ref_stars (nth k (star_indices tr) 0)))
              (sx3 (star3 ex_new_stars (nth k (star_indices tn) 0)))
              (sy3 (star3 ex_new_stars (nth k (star_indices tn) 0))).
Proof.
  assert (H : In (hd no_corr ex_corr)
                 (match_triangles ex_ref_tris ex_ref_stars ex_new_tris ex_new_stars))
    by (vm_compute; left; reflexivity).
  exact (conj H (match_triangles_provenance _ _ _ _ _ H)).
Defined.

(** ** Scoring a transform *)

Lemma fold_sum_sq_zero l s :
  (s == 0)%Q -> (fold_left (fun s e => Qplus' s (e * e)) (map (fun _ : correspondence => sqrtf 0) l) s == 0)%Q.
Proof.
  revert s; induction l as [|c l IH]; intros s Hs; simpl; [exact Hs|].
  apply IH. rewrite Qplus'_correct, Hs. reflexivity.
Qed.

(** X: A transform that maps every correspondence's new point exactly onto
    its reference point scores every correspondence as an inlier, with an
    RMS error of 0. *)
Theorem evaluate_affine_exact aff corr :
  (forall c, In c corr ->
     (fst (apply_affine aff (new_x c) (new_y c)) == ref_x c)%Q /\
     (snd (apply_affine aff (new_x c) (new_y c)) == ref_y c)%Q) ->
  fst (evaluate_affine aff corr) = length corr /\ (snd (evaluate_affine aff corr) == 0)%Q.
Proof.
  intros Hex. unfold evaluate_affine.
  match goal with |- context [map ?g corr] =>
    assert (Herr : map g corr = map (fun _ => sqrtf 0) corr) end.
  { apply map_ext_in. intros c Hc. destruct (Hex c Hc) as [Hx Hy].
    destruct (apply_affine aff (new_x c) (new_y c)) as [px py]. simpl in Hx, Hy.
    apply sqrtf_compat. unfold dist2. rewrite Hx, Hy. ring. }
  rewrite Herr. simpl fst. simpl snd. split.
  - assert (Hq : Qltb (sqrtf 0) RANSAC_INLIER_THRESHOLD = true) by reflexivity.
    clear Hex Herr. induction corr as [|c l IH]; [reflexivity|].
    cbn [map filter]. rewrite Hq. cbn [length]. rewrite IH. reflexivity.
  - destruct (length corr =? 0); [reflexivity|].
    rewrite (sqrtf_compat _ 0).
    + reflexivity.
    + rewrite (fold_sum_sq_zero corr 0 (Qeq_refl 0)). unfold Qdiv. ring.
Qed.

Lemma evaluate_affine_exact_witness :
  (forall c, In c ex_id_corr ->
     (fst (apply_affine ex_id_aff (new_x c) (new_y c)) == ref_x c)%Q /\
     (snd (apply_affine ex_id_aff (new_x c) (new_y c)) == ref_y c)%Q) /\
  fst (evaluate_affine ex_id_aff ex_id_corr) = length ex_id_corr.
Proof.
  assert (H : forall c, In c ex_id_corr ->
     (fst (apply_affine ex_id_aff (new_x c) (new_y c)) == ref_x c)%Q /\
     (snd (apply_affine ex_id_aff (new_x c) (new_y c)) == ref_y c)%Q).
  { intros c Hc. simpl in Hc. destruct Hc as [<- | [<- | [<- | []]]]; vm_compute; split; reflexivity. }
  exact (conj H (proj1 (evaluate_affine_exact _ _ H))).
Defined.

(** ** Nearest neighbours *)

Lemma sorted_mono {B} (key : B -> Q) (l : list B) d k1 k2 :
  (forall k, S k < length l -> (key (nth k l d) <= key (nth (S k) l d))%Q) ->
  k1 <= k2 -> k2 < length l -> (key (nth k1 l d) <= key (nth k2 l d))%Q.
Proof.
  intros Hadj Hle. induction Hle as [|k2 Hle IH]; intros Hk2; [apply Qle_refl|].
  apply (Qle_trans _ (key (nth k2 l d))); [apply IH; lia | apply Hadj, Hk2].
Qed.

(** X: The neighbours [form_triangles] uses for star [i] are its nearest:
    any other star [j'] among the first [max_use] that is not kept is at
    least as far (in squared distance) from star [i] as every kept
    neighbour [j]. *)
Theorem nearest_closest stars m i j j' :
  In j (nearest stars m i) -> j' < m -> j' <> i -> ~ In j' (nearest stars m i) ->
  (dist2 (sx3 (star3 stars i)) (sy3 (star3 stars i)) (sx3 (star3 stars j)) (sy3 (star3 stars j))
   <= dist2 (sx3 (star3 stars i)) (sy3 (star3 stars i)) (sx3 (star3 stars j')) (sy3 (star3 stars j')))%Q.
Proof.
  intros Hj Hm Hne Hnot. unfold nearest in Hj, Hnot.
  set (L := filter (fun j => negb (i =? j)) (seq 0 m)) in *.
  set (f := fun j => (dist2 (sx3 (star3 stars i)) (sy3 (star3 stars i))
                            (sx3 (star3 stars j)) (sy3 (star3 stars j)), j)) in *.
  set (shift := fun p key : Q * nat => Qltb (fst key) (fst p)) in *.
  set (S := insertion_sort shift (map f L)) in *.
  assert (Hf : forall p, In p S -> p = f (snd p)).
  { intros p Hp. apply (Permutation_in _ (insertion_sort_perm _ _)) in Hp.
    apply in_map_iff in Hp as [x [<- _]]. reflexivity. }
  assert (Hadj : forall k, Datatypes.S k < length S ->
            (fst (nth k S (0%Q, 0%nat)) <= fst (nth (Datatypes.S k) S (0%Q, 0%nat)))%Q).
  { intros k Hk. apply Qltb_false.
    exact (insertion_sort_sorted shift (fun x y => Qltb_asym _ _) (map f L) (0%Q, 0%nat) k Hk). }
  apply in_map_iff in Hj as [p [Hpj Hp]].
  apply (In_nth _ _ (0%Q, 0%nat)) in Hp as [k1 [Hk1 Hp]].
  rewrite length_firstn in Hk1. rewrite nth_firstn in Hp.
  destruct (Nat.ltb_spec k1 NUM_NEIGHBORS) as [Hk1'|]; [|lia].
  assert (Hj' : In (f j') S).
  { apply (Permutation_in _ (Permutation_sym (insertion_sort_perm _ _))).
    apply in_map, filter_In. split; [apply in_seq; lia|].
    apply negb_true_iff, Nat.eqb_neq. congruence. }
  apply (In_nth _ _ (0%Q, 0%nat)) in Hj' as [k2 [Hk2 Hq]].
  destruct (Nat.lt_ge_cases k2 NUM_NEIGHBORS) as [Hlt|Hge].
  - exfalso. apply Hnot, in_map_iff. exists (f j'). split; [reflexivity|].
    rewrite <- Hq.
    replace (nth k2 S (0%Q, 0%nat)) with (nth k2 (firstn NUM_NEIGHBORS S) (0%Q, 0%nat))
      by (rewrite nth_firstn; destruct (Nat.ltb_spec k2 NUM_NEIGHBORS); [reflexivity | lia]).
    apply nth_In. rewrite length_firstn. lia.
  - assert (HpS : In p S) by (rewrite <- Hp; apply nth_In; lia).
    pose proof (Hf p HpS) as Hfp. rewrite Hpj in Hfp.
    pose proof (sorted_mono fst S (0%Q, 0%nat) k1 k2 Hadj ltac:(lia) Hk2) as Hmono.
    rewrite Hp, Hq, Hfp in Hmono. exact Hmono.
Qed.

Definition ex_line7 : list sstar :=
  map (fun k => (inject_Z (Z.of_nat k), 0, 1)%Q) (seq 0 7).

Lemma nearest_closest_witness :
  In 1 (nearest ex_line7 7 0) /\ 6 < 7 /\ 6 <> 0 /\ ~ In 6 (nearest ex_line7 7 0) /\
  (dist2 (sx3 (star3 ex_line7 0)) (sy3 (star3 ex_line7 0)) (sx3 (star3 ex_line7 1)) (sy3 (star3 ex_line7 1))
   <= dist2 (sx3 (star3 ex_line7 0)) (sy3 (star3 ex_line7 0)) (sx3 (star3 ex_line7 6)) (sy3 (star3 ex_line7 6)))%Q.
Proof.
  assert (H1 : In 1 (nearest ex_line7 7 0)) by (vm_compute; tauto).
  assert (H2 : 6 < 7) by lia. assert (H3 : 6 <> 0) by lia.
  assert (H4 : ~ In 6 (nearest ex_line7 7 0)) by (vm_compute; intuition discriminate).
  exact (conj H1 (conj H2 (conj H3 (conj H4 (nearest_closest ex_line7 7 0 1 6 H1 H2 H3 H4))))).
Defined.

(** ** Warping by the identity *)

Lemma Qle_bool_compat a a' b b' : (a == a')%Q -> (b == b')%Q -> Qle_bool a b = Qle_bool a' b'.
Proof.
  intros Ha Hb. destruct (Qle_bool a b) eqn:E1, (Qle_bool a' b') eqn:E2; try reflexivity.
  - apply Qle_bool_iff in E1. rewrite Ha, Hb in E1. apply Qle_bool_iff in E1. congruence.
  - apply Qle_bool_iff in E2. rewrite <- Ha, <- Hb in E2. apply Qle_bool_iff in E2. congruence.
Qed.

Lemma Qltb_compat a a' b b' : (a == a')%Q -> (b == b')%Q -> Qltb a b = Qltb a' b'.
Proof. intros Ha Hb. unfold Qltb. rewrite (Qle_bool_compat _ _ _ _ Hb Ha). reflexivity. Qed.

Lemma trunc_int_compat x x' : (x == x')%Q -> trunc_int x = trunc_int x'.
Proof.
  intros H. unfold trunc_int. rewrite (Qle_bool_compat 0 0 x x' (Qeq_refl 0) H).
  rewrite (Qfloor_comp _ _ H). assert (H' : (- x == - x')%Q) by (rewrite H; reflexivity).
  rewrite (Qfloor_comp _ _ H'). reflexivity.
Qed.

Lemma bilinear_sample_compat image W H x x' y y' :
  (x == x')%Q -> (y == y')%Q ->
  (bilinear_sample image W H x y == bilinear_sample image W H x' y')%Q.
Proof.
  intros Hx Hy. unfold bilinear_sample.
  rewrite (Qltb_compat x x' 0 0 Hx (Qeq_refl 0)), (Qltb_compat y y' 0 0 Hy (Qeq_refl 0)).
  rewrite (Qle_bool_compat _ _ x x' (Qeq_refl _) Hx), (Qle_bool_compat _ _ y y' (Qeq_refl _) Hy).
  destruct (_ || _ || _ || _); [reflexivity|].
  cbv zeta. rewrite (trunc_int_compat _ _ Hx), (trunc_int_compat _ _ Hy).
  rewrite Hx, Hy. reflexivity.
Qed.

Lemma bilinear_at_grid image W H (x y : nat) :
  x + 1 < W -> y + 1 < H ->
  (bilinear_sample image W H (inject_Z (Z.of_nat x)) (inject_Z (Z.of_nat y))
     == inject_Z (nth (y * W + x) image 0%Z))%Q.
Proof.
  intros Hx Hy. unfold bilinear_sample.
  assert (Hlt : forall (a b : nat), a + 1 < b -> (inject_Z (Z.of_nat a) < inject_Z (Z.of_nat b - 1))%Q).
  { intros a b Hab. rewrite <- Zlt_Qlt. lia. }
  assert (Hge : forall (a : nat), (0 <= inject_Z (Z.of_nat a))%Q).
  { intros a. change 0%Q with (inject_Z 0). rewrite <- Zle_Qle. lia. }
  destruct (Qltb (inject_Z (Z.of_nat x)) 0) eqn:E1; [apply Qltb_true in E1; specialize (Hge x); lra|].
  destruct (Qltb (inject_Z (Z.of_nat y)) 0) eqn:E2; [apply Qltb_true in E2; specialize (Hge y); lra|].
  destruct (Qle_bool (inject_Z (Z.of_nat W - 1)) _) eqn:E3;
    [apply Qle_bool_iff in E3; specialize (Hlt _ _ Hx); lra|].
  destruct (Qle_bool (inject_Z (Z.of_nat H - 1)) _) eqn:E4;
    [apply Qle_bool_iff in E4; specialize (Hlt _ _ Hy); lra|].
  simpl orb. cbv iota zeta.
  rewrite !trunc_int_nonneg by apply Hge. rewrite !Qfloor_Z.
  replace (Z.to_nat (Z.of_nat y * Z.of_nat W + Z.of_nat x)) with (y * W + x) by lia.
  ring.
Qed.

(** X: At an integer point [(x, y)] with [x < width - 1] and
    [y < height - 1], [bilinear_sample] returns the pixel
    [image[y * width + x]] itself. *)
Theorem bilinear_sample_at_pixel image W H (x y : nat) :
  x + 1 < W -> y + 1 < H ->
  (bilinear_sample image W H (inject_Z (Z.of_nat x)) (inject_Z (Z.of_nat y))
     == inject_Z (nth (y * W + x) image 0%Z))%Q.
Proof. exact (bilinear_at_grid image W H x y). Qed.

Lemma bilinear_sample_at_pixel_witness :
  1 + 1 < 3 /\ 0 + 1 < 2 /\
  (bilinear_sample [10; 20; 30; 40; 50; 60]%Z 3 2 (inject_Z (Z.of_nat 1)) (inject_Z (Z.of_nat 0))
     == inject_Z (nth (0 * 3 + 1) [10; 20; 30; 40; 50; 60]%Z 0%Z))%Q.
Proof.
  assert (H1 : 1 + 1 < 3) by lia. assert (H2 : 0 + 1 < 2) by lia.
  exact (conj H1 (conj H2 (bilinear_sample_at_pixel _ 3 2 1 0 H1 H2))).
Defined.

(** The identity transform, as RANSAC returns it for a frame that has not
    moved. *)
Definition id_affine : affine := mk_affine 1 0 0 1 0 0.

Lemma Qltb_grid (a b : nat) :
  Qltb (inject_Z (Z.of_nat a)) (inject_Z (Z.of_nat b - 1)) = (S a <? b).
Proof.
  destruct (Nat.ltb_spec (S a) b) as [H|H].
  - destruct (Qltb _ _) eqn:E; [reflexivity|]. apply Qltb_false in E.
    rewrite <- Zle_Qle in E. lia.
  - destruct (Qltb _ _) eqn:E; [|reflexivity]. apply Qltb_true in E.
    rewrite <- Zlt_Qlt in E. lia.
Qed.

Lemma Qle_bool_grid (a : nat) : Qle_bool 0 (inject_Z (Z.of_nat a)) = true.
Proof. apply Qle_bool_iff. change 0%Q with (inject_Z 0). rewrite <- Zle_Qle. lia. Qed.

(** X: Warping a frame by the identity transform adds each pixel
    [(x, y)] with [x < width - 1] and [y < height - 1] to itself (its count
    goes up by one and its sum by the pixel value) and leaves the pixels of
    the last column and the last row untouched; [frame_count] goes up by
    one. *)
Theorem warp_identity_accumulates c image idx :
  idx < width c * height c ->
  frame_count (warp_and_accumulate c image id_affine) = S (frame_count c) /\
  if (S (idx mod width c) <? width c) && (S (idx / width c) <? height c)
  then nth idx (count (warp_and_accumulate c image id_affine)) 0 = S (nth idx (count c) 0) /\
       (nth idx (sum_r (warp_and_accumulate c image id_affine)) 0
          == nth idx (sum_r c) 0 + inject_Z (nth idx image 0%Z))%Q
  else nth idx (count (warp_and_accumulate c image id_affine)) 0 = nth idx (count c) 0 /\
       nth idx (sum_r (warp_and_accumulate c image id_affine)) 0%Q = nth idx (sum_r c) 0%Q.
Proof.
  intros Hidx.
  assert (HW : width c <> 0) by (intros E; rewrite E in Hidx; simpl in Hidx; lia).
  assert (Hinv : exists inv, invert_affine id_affine = Some inv /\
                   forall x y, (fst (apply_affine inv x y) == x)%Q /\ (snd (apply_affine inv x y) == y)%Q).
  { eexists. split; [vm_compute; reflexivity|]. intros x y. simpl. split; ring. }
  destruct Hinv as [inv [Hi Hinv]].
  unfold warp_and_accumulate. rewrite Hi. unfold accumulate.
  cbn [width height sum_r count frame_count]. split; [reflexivity|].
  rewrite !nth_map_seq by exact Hidx.
  set (X := inject_Z (Z.of_nat (idx mod width c))).
  set (Y := inject_Z (Z.of_nat (idx / width c))).
  destruct (Hinv X Y) as [Hx Hy].
  destruct (apply_affine inv X Y) as [sx sy] eqn:Ea. simpl in Hx, Hy.
  rewrite (Qle_bool_compat 0 0 sx X (Qeq_refl 0) Hx), (Qle_bool_compat 0 0 sy Y (Qeq_refl 0) Hy).
  rewrite (Qltb_compat sx X _ _ Hx (Qeq_refl _)), (Qltb_compat sy Y _ _ Hy (Qeq_refl _)).
  unfold X, Y. rewrite !Qle_bool_grid, !Qltb_grid. cbn [andb].
  destruct (Nat.ltb_spec (S (idx mod width c)) (width c)) as [H1|H1];
    destruct (Nat.ltb_spec (S (idx / width c)) (height c)) as [H2|H2]; cbn [andb];
    try (split; reflexivity).
  split; [reflexivity|].
  apply Qplus_comp; [reflexivity|].
  eapply Qeq_trans; [exact (bilinear_sample_compat image _ _ sx _ sy _ Hx Hy)|].
  eapply Qeq_trans;
    [exact (bilinear_at_grid image (width c) (height c) (idx mod width c) (idx / width c)
              ltac:(lia) ltac:(lia))|].
  rewrite Nat.mul_comm, <- Nat.div_mod_eq. reflexivity.
Qed.

Lemma warp_identity_accumulates_witness :
  0 < width (init_ctx 2 2) * height (init_ctx 2 2) /\
  nth 0 (count (warp_and_accumulate (init_ctx 2 2) ex_pixels id_affine)) 0 = 1.
Proof.
  assert (H : 0 < width (init_ctx 2 2) * height (init_ctx 2 2)) by (simpl; lia).
  split; [exact H|].
  exact (proj1 (proj2 (warp_identity_accumulates (init_ctx 2 2) ex_pixels 0 H))).
Defined.
